(** * vital: the new-lineages / new-labels study script

    A shallow embedding of [vital/models/new_lineages_new_label_study.py]:
    the construction of the labelled dataset (known lineages of the
    reference tree, one aggregated group of capped novel lineages) and the
    sequence of calls the script makes on the model registry.

    Conventions.
    - Python [str] is [string]; a Python [list] is a [list]; a Python [set]
      of strings is a [gset string]; a [dict] with string keys is a
      [gmap string _].
    - Python integers are [Z]; float literals are exact decimals in [Q]
      (the script never computes with them).
    - A call that may raise returns an [outcome]. *)

From Stdlib Require Import ZArith QArith Ascii.
From stdpp Require Import base strings list gmap sorting pretty.

Set Warnings "-register-all".

Local Open Scope Z_scope.

(** ** Python primitives used by the script *)

Module Py.

(** Exceptions are identified by their class name and message. *)
Inductive exn : Type :=
| Exn (cls : string) (msg : string).

Definition Exception (msg : string) : exn := Exn "Exception" msg.
Definition IndexError : exn := Exn "IndexError" "list index out of range".
Definition KeyError (k : string) : exn := Exn "KeyError" k.

(** The result of evaluating a statement or call. *)
Inductive outcome (A : Type) : Type :=
| Returned (a : A)
| Raised (e : exn).
Global Arguments Returned {A} a.
Global Arguments Raised {A} e.

Global Instance outcome_ret : MRet outcome := λ A a, Returned a.
Global Instance outcome_bind : MBind outcome := λ A B k o,
  match o with
  | Returned a => k a
  | Raised e => Raised e
  end.

(** [for x in xs: acc = body(acc, x)], stopping at the first exception. *)
Fixpoint for_each {A S} (body : S → A → outcome S) (s : S) (xs : list A)
  : outcome S :=
  match xs with
  | [] => Returned s
  | x :: xs' => s' ← body s x; for_each body s' xs'
  end.

(** [l[:k]]: a negative bound counts from the end, and a bound past either
    end is clamped. *)
Definition slice_to {A} (k : Z) (l : list A) : list A :=
  if decide (k < 0)
  then take (Z.to_nat (Z.of_nat (length l) + k)) l
  else take (Z.to_nat k) l.

(** [l[i]] for a non-negative literal index. *)
Definition index {A} (l : list A) (i : nat) : outcome A :=
  match l !! i with
  | Some x => Returned x
  | None => Raised IndexError
  end.

(** [s.split(sep)] for a one-character separator: the fields between the
    occurrences of [sep]; always at least one field. *)
Fixpoint split (sep : ascii) (s : string) : list string :=
  match s with
  | EmptyString => [EmptyString]
  | String c s' =>
      if decide (c = sep) then EmptyString :: split sep s'
      else match split sep s' with
           | f :: fs => String c f :: fs
           | [] => [String c EmptyString]
           end
  end.

(** Iterating over a text file yields its lines, each with its
    terminating newline (the last line may lack one).  The text is the
    one Python's text layer delivers, newlines already translated. *)
Fixpoint readlines (text : string) : list string :=
  match text with
  | EmptyString => []
  | String c rest =>
      if decide (c = "010"%char) then String c EmptyString :: readlines rest
      else match readlines rest with
           | l :: ls => String c l :: ls
           | [] => [String c EmptyString]
           end
  end.

(** [list.sort()] on strings: ascending in the code-point order. *)
Definition str_le (a b : string) : Prop := String.leb a b = true.
Global Instance str_le_dec a b : Decision (str_le a b) :=
  decide (String.leb a b = true).

Definition sort (l : list string) : list string := merge_sort str_le l.

End Py.

Import Py.

(** ** The dataset of the study: lines 43-66 of the script *)

Module Study.

(** A group of the dataset: a label and the accession paths under it. *)
Definition group : Type := string * list string.

Definition new_lineages_label : string := "new_lineages".

Section Dataset.
(** [covid19_genome.getLocalAccessionsPath] on the catalog snapshot. *)
Variable getLocalAccessionsPath : string → list string.
(** [lineages = covid19_genome.getLocalLineages(512)]. *)
Variable lineages : list string.

Definition lineages_set : gset string := list_to_set lineages.

(** Body of [for line in f]. *)
Definition tree_line (lineages_in_tree : list string) (line : string)
  : outcome (list string) :=
  lineage ← index (split "009"%char line) 0;
  if decide (lineage ∈ lineages_set)
  then Returned (lineages_in_tree ++ [lineage])
  else Returned lineages_in_tree.

(** Lines 47-55.  [f] is what opening and reading
    [lineages_in_tree.txt] gives: its text, or the exception raised. *)
Definition lineages_in_tree (f : outcome string) : outcome (list string) :=
  text ← f;
  in_tree ← for_each tree_line [] (readlines text);
  Returned (sort in_tree).

(** The bound of the slice on line 64, which the script fixes at 64. *)
Variable per_lineage_cap : Z.
(** The sorted list [lineages_in_tree] that [get_dataset] closes over. *)
Variable in_tree : list string.

(** Body of [for lineage in lineages], on the pair of the module-level
    list [dataset] and the local list [new_lineages]. *)
Definition get_dataset_step (lineages_in_tree_set : gset string)
    (st : list group * list string) (lineage : string)
  : list group * list string :=
  let '(dataset, new_lineages) := st in
  if decide (lineage ∈ lineages_in_tree_set)
  then (dataset ++ [(lineage, getLocalAccessionsPath lineage)],
        new_lineages)
  else (dataset,
        new_lineages
          ++ slice_to per_lineage_cap (getLocalAccessionsPath lineage)).

(** Lines 57-66.  [dataset] is the list object bound at module level
    (line 56); the function appends to that object and returns it, so
    the result is both the value returned and the new content of the
    shared list. *)
Definition get_dataset (dataset : list group) : list group :=
  let new_lineages := [] in
  let lineages_in_tree_set : gset string := list_to_set in_tree in
  let '(dataset, new_lineages) :=
    foldl (get_dataset_step lineages_in_tree_set)
          (dataset, new_lineages) lineages in
  dataset ++ [(new_lineages_label, new_lineages)].

End Dataset.

(** Line 64 of the script. *)
Definition script_cap : Z := 64.

End Study.

(** ** The model registry and the genome catalog, as the script uses them *)

Module Registry.

(** Values stored in dataset properties and hyper-parameters. *)
Inductive pyval : Type :=
| VInt (z : Z)
| VFloat (q : Q)
| VStr (s : string)
| VDict (items : list (string * pyval)).

(** The calls of the script on [model] (and [load_model], [Model]), each
    indexed by the type of what it returns. *)
Inductive call : Type → Type :=
| load_model (name : string) : call unit
| Model (name : string) : call unit
| get_ds_types : call (list string)
| create_datasets (ds_type : string) (dataset : list Study.group)
    (portions : gmap string Q) : call unit
| get_ml_model_structures : call (list string)
| get_ml_model_structure_hps (structure : string) : call pyval
| get_ds_props : call (gmap string pyval)
| update_ds_props (patch : gmap string pyval) : call unit
| get_labels : call (list string)
| add_ml_model (name : string) (hps : pyval) : call unit
| list_ml_models : call (list string)
| set_ds_batch_size (n : Z) : call unit
| train (name : string) (epochs : Z) : call unit.

(** A program over the registry: it returns, raises, or makes a call and
    goes on with what the call returned or raised. *)
Inductive prog (A : Type) : Type :=
| Ret (a : A)
| Throw (e : exn)
| Call {X : Type} (c : call X) (k : outcome X → prog A).
Global Arguments Ret {A} a.
Global Arguments Throw {A} e.
Global Arguments Call {A X} c k.

Fixpoint prog_bind {A B} (k : A → prog B) (p : prog A) : prog B :=
  match p with
  | Ret a => k a
  | Throw e => Throw e
  | Call c h => Call c (λ r, prog_bind k (h r))
  end.
Global Instance prog_mret : MRet prog := λ A a, Ret a.
Global Instance prog_mbind : MBind prog := λ A B k p, prog_bind k p.

(** A pure computation that may raise, run inside a program. *)
Definition lift {A} (o : outcome A) : prog A :=
  match o with
  | Returned a => Ret a
  | Raised e => Throw e
  end.

(** A call whose exception is not handled at the call site. *)
Definition do {X} (c : call X) : prog X := Call c lift.

(** [try: p  except: ...]: the handler receives how [p] ended.  Every
    exception of the model is an [Exception], so [except Exception] and a
    bare [except] handle the same ones. *)
Fixpoint try {A} (p : prog A) : prog (outcome A) :=
  match p with
  | Ret a => Ret (Returned a)
  | Throw e => Ret (Raised e)
  | Call c h => Call c (λ r, try (h r))
  end.

(** One call together with the registry's answer. *)
Inductive event : Type :=
| Ev {X : Type} (c : call X) (r : outcome X).

(** [run p t o]: against a registry answering as recorded in [t], the
    program [p] makes exactly the calls of [t] and ends as [o]. *)
Fixpoint run {A} (p : prog A) (t : list event) (o : outcome A) : Prop :=
  match p with
  | Ret a => t = [] ∧ o = Returned a
  | Throw e => t = [] ∧ o = Raised e
  | Call c k => ∃ r t', t = Ev c r :: t' ∧ run (k r) t' o
  end.

Record catalog : Type := {
  getLocalLineages : Z → list string;
  getLocalAccessionsPath : string → list string
}.

End Registry.

(** ** The script, top to bottom.  Writes to standard output are left out;
    the calls made to compute what is printed are kept. *)

Module Script.
Import Study Registry.

Definition frag_len : Z := 288.
Definition model_name : string := "covid19-new_lineages-new_labels".

(** Lines 68-72; [DatasetName.<member>.name] is the member's name. *)
Definition portions : gmap string Q :=
  {[ "trainset" := 0.8%Q; "validset" := 0.1%Q; "testset" := 0.1%Q ]}.

Definition coverage : Z := 4.
Definition ml_model_depth : Z := 1.
Definition sequencer_instrument : string := "ideal".

Definition error_profile (substitution insertion deletion : Q)
  : gmap string pyval :=
  {[ "substitution_rate" := VFloat substitution;
     "insertion_rate" := VFloat insertion;
     "deletion_rate" := VFloat deletion ]}.

Definition sequencer_instrument_to_error_profile_map
  : gmap string (gmap string pyval) :=
  {[ "ideal" := error_profile 0.0 0.0 0.0;
     "illumina" := error_profile 0.005 0.001 0.001;
     "ont" := error_profile 0.01 0.04 0.04;
     "pacbio" := error_profile 0.005 0.025 0.025;
     "roche" := error_profile 0.002 0.01 0.01 ]}.

(** [d[k]] on a dict. *)
Definition getitem {V} (d : gmap string V) (k : string) : outcome V :=
  match d !! k with
  | Some v => Returned v
  | None => Raised (KeyError k)
  end.

Definition get_model_name (ml_model_depth coverage : Z)
    (sequencer_instrument : string) : outcome string :=
  if decide (sequencer_instrument_to_error_profile_map
               !! sequencer_instrument = None)
  then Raised (Exception
                 ("Invalid sequencer instrument: " +:+ sequencer_instrument))
  else Returned ("vit." +:+ pretty ml_model_depth +:+ "."
                   +:+ pretty coverage +:+ "x." +:+ sequencer_instrument).

(** The [hps] dict of lines 159-182, given what the three calls inside it
    returned. *)
Definition ml_model_hps (structure : string) (d_model : pyval)
    (labels : list string) : pyval :=
  VDict [
    ("structure", VStr structure);
    ("d_model", d_model);
    ("d_val", VInt 128);
    ("d_key", VInt 128);
    ("heads", VInt 8);
    ("d_ff", VInt (1024 + 256));
    ("labels", VInt (Z.of_nat (length labels)));
    ("activation", VStr "relu");
    ("optimizer", VDict [
       ("name", VStr "AdamW");
       ("params", VDict [("learning_rate", VFloat 0.001)])]);
    ("encoder_repeats", VInt ml_model_depth);
    ("regularizer", VDict [
       ("name", VStr "l2");
       ("params", VDict [("l2", VFloat 0.0001)])]);
    ("dropout", VFloat 0.2)].

Section Run.
Variable covid19_genome : catalog.
(** What opening and reading [lineages_in_tree.txt] gives. *)
Variable tree_file : outcome string.

(** The [except] branch, lines 42-77, with the slice bound of line 64
    and the dict of lines 68-72 as arguments. *)
Definition make_datasets (per_lineage_cap : Z) (portions : gmap string Q)
  : prog unit :=
  let lineages := getLocalLineages covid19_genome 512 in
  in_tree ← lift (lineages_in_tree lineages tree_file);
  let dataset := [] in
  let dataset :=
    get_dataset (getLocalAccessionsPath covid19_genome) lineages
                per_lineage_cap in_tree dataset in
  do (Model model_name);;
  ds_types ← do get_ds_types;
  ds_type ← lift (index ds_types 0);
  do (create_datasets ds_type dataset portions).

(** Lines 39-77. *)
Definition load_or_create : prog unit :=
  loaded ← try (do (load_model model_name));
  match loaded with
  | Returned _ => Ret ()
  | Raised _ => make_datasets script_cap portions
  end.

(** Lines 85-86. *)
Definition show_structures : prog unit :=
  do get_ml_model_structures;;
  structures ← do get_ml_model_structures;
  structure ← lift (index structures 0);
  do (get_ml_model_structure_hps structure);;
  Ret ().

(** Lines 92-99. *)
Definition set_frag_len : prog unit :=
  do get_ds_props;;
  ds_props ← do get_ds_props;
  if decide (ds_props !! "frag_len" = None)
  then Throw (Exception "No fragment length exist in the dataset props.")
  else do (update_ds_props {[ "frag_len" := VInt frag_len ]}).

(** Lines 157-185; the result is [newly_added]. *)
Definition add_model (ml_model_name : string) : prog bool :=
  added ← try (
    structures ← do get_ml_model_structures;
    structure ← lift (index structures 0);
    ds_props ← do get_ds_props;
    d_model ← lift (getitem ds_props "frag_len");
    labels ← do get_labels;
    do (add_ml_model ml_model_name (ml_model_hps structure d_model labels)));
  match added with
  | Returned _ => Ret true
  | Raised _ => Ret false
  end.

(** Lines 188-226. *)
Definition train_model (ml_model_name : string) : prog unit :=
  do list_ml_models;;
  profile ← lift (getitem sequencer_instrument_to_error_profile_map
                          sequencer_instrument);
  do (update_ds_props (profile ∪ {[ "coverage" := VInt coverage ]}));;
  do (set_ds_batch_size 512);;
  do (train ml_model_name 1000).

Definition script : prog unit :=
  load_or_create;;
  show_structures;;
  set_frag_len;;
  ml_model_name ←
    lift (get_model_name ml_model_depth coverage sequencer_instrument);
  add_model ml_model_name;;
  train_model ml_model_name.

End Run.

End Script.

(** ** The partition operation as the specification words it

    Section 4.1: for each lineage in catalog order, a member of the
    reference tree gives a group with its full accession list, and any other
    lineage adds its first [per_lineage_cap] accessions to the novel
    accumulator, which becomes the last group. *)

Module Spec.
Import Study.

Definition group_of (catalog_lookup : string → list string) (lineage : string)
  : group :=
  (lineage, catalog_lookup lineage).

Definition novel_accumulator (reference_membership : gset string)
    (per_lineage_cap : nat) (catalog_lookup : string → list string)
    (all_lineages : list string) : list string :=
  concat ((λ l, take per_lineage_cap (catalog_lookup l))
            <$> filter (λ l, l ∉ reference_membership) all_lineages).


(** The lineages of the catalog that get a group of their own, and those
    that contribute to the novel group, both in catalog order. *)
Definition known_lineages (in_tree lineages : list string) : list string :=
  filter (λ l, l ∈ in_tree) lineages.
Definition novel_lineages (in_tree lineages : list string) : list string :=
  filter (λ l, l ∉ in_tree) lineages.

Definition labels (out : list group) : list string := fst <$> out.

Definition groups_labelled (label : string) (out : list group) : list group :=
  filter (λ g, g.1 = label) out.

(** The first tab-separated field of a line: what precedes its first tab. *)
Fixpoint first_field (line : string) : string :=
  match line with
  | EmptyString => EmptyString
  | String c rest =>
      if decide (c = "009"%char) then EmptyString
      else String c (first_field rest)
  end.

End Spec.

(** ** Properties of the calls a run makes *)

Module Trace.
Import Registry Script.

Definition is_train (ev : event) : Prop :=
  match ev with
  | Ev c _ => match c with train _ _ => True | _ => False end
  end.

Definition is_update (ev : event) : Prop :=
  match ev with
  | Ev c _ => match c with update_ds_props _ => True | _ => False end
  end.

(** The call returned instead of raising. *)
Definition answered (ev : event) : Prop :=
  match ev with
  | Ev _ (Returned _) => True
  | Ev _ (Raised _) => False
  end.

(** The call sets the fragment length of the dataset to [frag_len]. *)
Definition supplies_frag_len (ev : event) : Prop :=
  match ev with
  | Ev c _ =>
      match c with
      | update_ds_props patch => patch !! "frag_len" = Some (VInt frag_len)
      | _ => False
      end
  end.

(** Neither a change of the dataset properties nor a training call. *)
Definition quiet (ev : event) : Prop := ¬ is_update ev ∧ ¬ is_train ev.

(** [P] holds of every call the program can make, whatever is answered. *)
Fixpoint every_call {A} (P : event → Prop) (p : prog A) : Prop :=
  match p with
  | Ret _ | Throw _ => True
  | Call c k => ∀ r, P (Ev c r) ∧ every_call P (k r)
  end.

Definition frag_len_patch : gmap string pyval :=
  {[ "frag_len" := VInt frag_len ]}.

Definition no_frag_len : exn :=
  Exception "No fragment length exist in the dataset props.".

End Trace.

(** ** Concrete inputs *)

Module Examples.
Import Study Registry Script Trace.

Definition tab : string := String "009"%char EmptyString.
Definition nl : string := String "010"%char EmptyString.

(** The catalog of the worked example of section 8. *)
Definition example_lookup (l : string) : list string :=
  if decide (l = "A") then ["a1"; "a2"; "a3"]
  else if decide (l = "B") then ["b1"]
  else if decide (l = "C") then ["c1"; "c2"; "c3"]
  else [].

Definition example_catalog : catalog :=
  {| getLocalLineages := λ _, ["A"; "B"; "C"];
     getLocalAccessionsPath := example_lookup |}.

(** A reference file naming [A] and [B]. *)
Definition example_reference : string :=
  "A" +:+ tab +:+ "x" +:+ nl +:+ "B" +:+ tab +:+ "y" +:+ nl.


(** A catalog whose only lineage bears the name of the novel group. *)
Definition clash_catalog : catalog :=
  {| getLocalLineages := λ _, ["new_lineages"];
     getLocalAccessionsPath := λ _, ["p1"] |}.

Definition clash_reference : string := "new_lineages" +:+ tab +:+ "x" +:+ nl.

Definition example_dataset : list group :=
  [("A", ["a1"; "a2"; "a3"]); ("B", ["b1"]);
   ("new_lineages", ["c1"; "c2"; "c3"])].

Definition example_props : gmap string pyval :=
  {[ "frag_len" := VInt 128; "coverage" := VInt 1 ]}.

(** A run in which no model is stored yet, every call is answered and the
    dataset has a fragment length. *)
Definition example_run : list event :=
  [Ev (load_model model_name) (Raised (Exception "model not found"));
   Ev (Model model_name) (Returned ());
   Ev get_ds_types (Returned ["mh_genome_ds"]);
   Ev (create_datasets "mh_genome_ds" example_dataset portions) (Returned ());
   Ev get_ml_model_structures (Returned ["VitStructure"]);
   Ev get_ml_model_structures (Returned ["VitStructure"]);
   Ev (get_ml_model_structure_hps "VitStructure") (Returned (VDict []));
   Ev get_ds_props (Returned example_props);
   Ev get_ds_props (Returned example_props);
   Ev (update_ds_props frag_len_patch) (Returned ());
   Ev get_ml_model_structures (Returned ["VitStructure"]);
   Ev get_ds_props (Returned (frag_len_patch ∪ example_props));
   Ev get_labels (Returned ["A"; "B"; "new_lineages"]);
   Ev (add_ml_model "vit.1.4x.ideal"
         (ml_model_hps "VitStructure" (VInt 288) ["A"; "B"; "new_lineages"]))
      (Returned ());
   Ev list_ml_models (Returned ["vit.1.4x.ideal"]);
   Ev (update_ds_props
         (error_profile 0.0 0.0 0.0 ∪ {[ "coverage" := VInt coverage ]}))
      (Returned ());
   Ev (set_ds_batch_size 512) (Returned ());
   Ev (train "vit.1.4x.ideal" 1000) (Returned ())].

(** A run on a stored model whose dataset has no fragment length. *)
Definition example_run_without_frag_len : list event :=
  [Ev (load_model model_name) (Returned ());
   Ev get_ml_model_structures (Returned ["VitStructure"]);
   Ev get_ml_model_structures (Returned ["VitStructure"]);
   Ev (get_ml_model_structure_hps "VitStructure") (Returned (VDict []));
   Ev get_ds_props (Returned ({[ "coverage" := VInt 1 ]} : gmap string pyval));
   Ev get_ds_props (Returned ({[ "coverage" := VInt 1 ]} : gmap string pyval))].

End Examples.

(** ** Further notions used to describe the script *)

Module Shape.
Import Study Registry Script.

(** The character [c] occurs in [s]. *)
Fixpoint occurs (c : ascii) (s : string) : Prop :=
  match s with
  | EmptyString => False
  | String d rest => d = c ∨ occurs c rest
  end.

(** A text whose last line, if any, ends with a newline. *)
Definition terminated (text : string) : Prop :=
  text = EmptyString
  ∨ ∃ body, text = body +:+ String "010"%char EmptyString.


Definition rate_keys : gset string :=
  {[ "substitution_rate"; "insertion_rate"; "deletion_rate" ]}.

(** A dataset property that is a float within the given bounds. *)
Definition float_between (lo hi : Q) (v : option pyval) : Prop :=
  match v with
  | Some (VFloat q) => (lo <= q)%Q ∧ (q <= hi)%Q
  | _ => False
  end.

Definition is_create (ev : event) : Prop :=
  match ev with
  | Ev c _ => match c with create_datasets _ _ _ => True | _ => False end
  end.

(** A call that belongs to the creation of a model and its datasets. *)
Definition is_creation (ev : event) : Prop :=
  match ev with
  | Ev c _ =>
      match c with
      | Model _ | get_ds_types | create_datasets _ _ _ => True
      | _ => False
      end
  end.

Definition is_add (ev : event) : Prop :=
  match ev with
  | Ev c _ => match c with add_ml_model _ _ => True | _ => False end
  end.

(** The name under which the script adds and trains its network. *)
Definition script_ml_model_name : string := "vit.1.4x.ideal".

(** The patch of lines 217-219 for a given coverage and error profile. *)
Definition coverage_patch (coverage : Z) (profile : gmap string pyval)
  : gmap string pyval :=
  profile ∪ {[ "coverage" := VInt coverage ]}.

(** A call that belongs to neither the loading nor the creation of the
    model. *)
Definition after_creation (ev : event) : Prop :=
  match ev with
  | Ev c _ =>
      match c with
      | load_model _ | Model _ | get_ds_types | create_datasets _ _ _ => False
      | _ => True
      end
  end.

(** A call of [add_ml_model] that returned. *)
Definition answered_add (ev : event) : Prop := is_add ev ∧ Trace.answered ev.

(** A character that is neither of the separators of a network name. *)
Definition plain_char (c : ascii) : Prop := c ≠ "."%char ∧ c ≠ "x"%char.

(** A reference file that lists the lineages [A] and [B] one per line,
    without a tab. *)
Definition bare_reference : string :=
  "A" +:+ String "010"%char ("B" +:+ String "010"%char EmptyString).

(** A run in which no model is stored and the reference file is missing. *)
Definition missing_file : exn :=
  Exn "FileNotFoundError" "lineages_in_tree.txt".

End Shape.

(** * Verification *)

Import Study Registry Script Spec Trace Examples.

(** ** Slices, fields and lines *)

Lemma slice_to_nonneg {A} k (l : list A) :
  0 ≤ k → slice_to k l = take (Z.to_nat k) l.
Proof. intros. unfold slice_to. case_decide; [lia|done]. Qed.

Lemma slice_to_neg {A} k (l : list A) :
  k < 0 → slice_to k l = take (length l - Z.to_nat (- k)) l.
Proof. intros. unfold slice_to. case_decide; [|lia]. f_equal. lia. Qed.

Lemma split_first_field s :
  ∃ fields, split "009"%char s = first_field s :: fields.
Proof.
  induction s as [|c s [fields IH]]; simpl; [by eexists|].
  case_decide; [by eexists|]. rewrite IH. by eexists.
Qed.

Lemma index_split_0 s :
  index (split "009"%char s) 0 = Returned (first_field s).
Proof. destruct (split_first_field s) as [fields ->]. done. Qed.

(** The lines of a text, put end to end, are the text. *)
Lemma readlines_concat text :
  foldr String.append EmptyString (readlines text) = text.
Proof.
  induction text as [|c text IH]; [done|]. simpl. case_decide.
  - simpl. by rewrite IH.
  - destruct (readlines text) as [|l ls]; simpl in *; by rewrite <- IH.
Qed.

(** A line is its first field alone, or the field, a tab and the rest;
    the field itself has no tab. *)
Lemma first_field_prefix line :
  line = first_field line
  ∨ ∃ rest, line = first_field line +:+ String "009"%char rest.
Proof.
  induction line as [|c line IH]; simpl; [by left|].
  case_decide as Hc.
  - subst c. right. by exists line.
  - destruct IH as [IH|[rest IH]].
    + left. congruence.
    + right. exists rest.
      change (String c line
              = String c (first_field line +:+ String "009"%char rest)).
      congruence.
Qed.

Lemma first_field_no_tab line pre post :
  first_field line ≠ pre +:+ String "009"%char post.
Proof.
  revert pre. induction line as [|c line IH]; intros pre; simpl.
  - by destruct pre.
  - case_decide as Hc; [by destruct pre|].
    destruct pre as [|d pre].
    + intros [= -> _]. done.
    + change (String c (first_field line)
              ≠ String d (pre +:+ String "009"%char post)).
      intros [= -> Heq]. by eapply IH.
Qed.

(** ** Reading the reference tree *)

Lemma tree_line_eq lineages acc line :
  tree_line lineages acc line =
  Returned (if decide (first_field line ∈ lineages)
            then acc ++ [first_field line] else acc).
Proof.
  unfold tree_line. rewrite index_split_0. simpl. unfold lineages_set.
  destruct (decide (first_field line ∈ (list_to_set lineages : gset string)))
    as [Hin|Hin];
    rewrite elem_of_list_to_set in Hin; by case_decide.
Qed.

Lemma for_each_tree_line lineages acc lines :
  for_each (tree_line lineages) acc lines =
  Returned (acc ++ filter (λ x, x ∈ lineages) (first_field <$> lines)).
Proof.
  revert acc. induction lines as [|line lines IH]; intros acc.
  - simpl. by rewrite app_nil_r.
  - cbn [for_each]. rewrite tree_line_eq. simpl. rewrite IH, filter_cons.
    case_decide; [by rewrite <- app_assoc|done].
Qed.

Lemma lineages_in_tree_returns lineages text :
  lineages_in_tree lineages (Returned text) =
  Returned (sort (filter (λ x, x ∈ lineages) (first_field <$> readlines text))).
Proof. unfold lineages_in_tree. simpl. by rewrite for_each_tree_line. Qed.

(** When the file cannot be opened or read, the exception is passed on. *)
Lemma lineages_in_tree_raises lineages e :
  lineages_in_tree lineages (Raised e) = Raised e.
Proof. done. Qed.


(** ** The loop of [get_dataset] *)

Section Loop.
Variable acc : string → list string.
Variable cap : Z.

Lemma get_dataset_loop (S : gset string) ls d n :
  foldl (get_dataset_step acc cap S) (d, n) ls =
  (d ++ (group_of acc <$> filter (λ l, l ∈ S) ls),
   n ++ concat ((λ l, slice_to cap (acc l)) <$> filter (λ l, l ∉ S) ls)).
Proof.
  revert d n. induction ls as [|l ls IH]; intros d n; simpl.
  - by rewrite !app_nil_r.
  - destruct (decide (l ∈ S)) as [Hin|Hin].
    + rewrite IH, filter_cons_True, filter_cons_False by auto.
      by rewrite fmap_cons, <- app_assoc.
    + rewrite IH, filter_cons_False, filter_cons_True by auto.
      by rewrite fmap_cons, concat_cons, <- app_assoc.
Qed.

Lemma get_dataset_unfold lineages in_tree d :
  get_dataset acc lineages cap in_tree d =
  d ++ (group_of acc <$> known_lineages in_tree lineages)
    ++ [(new_lineages_label,
         concat ((λ l, slice_to cap (acc l))
                   <$> novel_lineages in_tree lineages))].
Proof.
  unfold get_dataset. rewrite get_dataset_loop. simpl. rewrite <- app_assoc.
  unfold known_lineages, novel_lineages.
  rewrite (list_filter_iff (λ l, l ∈ (list_to_set in_tree : gset string))
                           (λ l, l ∈ in_tree))
    by (intros; apply elem_of_list_to_set).
  rewrite (list_filter_iff (λ l, l ∉ (list_to_set in_tree : gset string))
                           (λ l, l ∉ in_tree)); [done|].
  intros x. by rewrite elem_of_list_to_set.
Qed.

End Loop.


Lemma novel_slices_take (acc : string → list string) cap (ls : list string) :
  0 ≤ cap →
  concat ((λ l, slice_to cap (acc l)) <$> ls)
  = concat ((λ l, take (Z.to_nat cap) (acc l)) <$> ls).
Proof.
  intros. f_equal. apply list_fmap_ext. intros _ l _. by apply slice_to_nonneg.
Qed.

Lemma known_spec (in_tree lineages : list string) l :
  l ∈ known_lineages in_tree lineages ↔ l ∈ lineages ∧ l ∈ in_tree.
Proof. unfold known_lineages. rewrite list_elem_of_filter. tauto. Qed.

Lemma novel_spec (in_tree lineages : list string) l :
  l ∈ novel_lineages in_tree lineages ↔ l ∈ lineages ∧ l ∉ in_tree.
Proof. unfold novel_lineages. rewrite list_elem_of_filter. tauto. Qed.

Lemma once_in_NoDup (ls : list string) l :
  NoDup ls → l ∈ ls → ∃ i, ls !! i = Some l ∧ ∀ j, ls !! j = Some l → j = i.
Proof.
  intros Hnd [i Hi]%list_elem_of_lookup. exists i. split; [done|].
  intros j Hj. by eapply NoDup_lookup.
Qed.

Lemma groups_labelled_known (acc : string → list string) label
    (ls : list string) :
  label ∉ ls → filter (λ g : group, g.1 = label) (group_of acc <$> ls) = [].
Proof.
  intros Hnot. induction ls as [|l ls IH]; [done|].
  rewrite fmap_cons, filter_cons_False.
  - apply IH. intros ?. apply Hnot. by right.
  - simpl. intros ->. apply Hnot. by left.
Qed.

Lemma get_dataset_ext acc acc' lineages cap in_tree in_tree' :
  (∀ l, l ∈ lineages → acc l = acc' l) →
  (∀ l, l ∈ in_tree ↔ l ∈ in_tree') →
  get_dataset acc lineages cap in_tree []
  = get_dataset acc' lineages cap in_tree' [].
Proof.
  intros Hacc Htree. rewrite !get_dataset_unfold, !app_nil_l.
  assert (known_lineages in_tree lineages = known_lineages in_tree' lineages)
    as ->.
  { apply list_filter_iff. intros. apply Htree. }
  assert (novel_lineages in_tree lineages = novel_lineages in_tree' lineages)
    as ->.
  { apply list_filter_iff. intros x. by rewrite Htree. }
  f_equal.
  - apply list_fmap_ext. intros _ l [Hl _]%list_elem_of_lookup_2%known_spec.
    unfold group_of. by rewrite Hacc.
  - do 3 f_equal. apply list_fmap_ext.
    intros _ l [Hl _]%list_elem_of_lookup_2%novel_spec. by rewrite Hacc.
Qed.

(** ** The dataset the script builds *)



Lemma novel_concat_eq (acc : string → list string) cap in_tree (ls : list string) :
  0 ≤ cap →
  concat ((λ l, slice_to cap (acc l)) <$> novel_lineages in_tree ls)
  = novel_accumulator (list_to_set in_tree) (Z.to_nat cap) acc ls.
Proof.
  intros Hcap. rewrite novel_slices_take by done.
  unfold novel_accumulator, novel_lineages. do 2 f_equal.
  apply list_filter_iff. intros x. by rewrite elem_of_list_to_set.
Qed.

Lemma novel_accumulator_app S n (acc : string → list string) (l1 l2 : list string) :
  novel_accumulator S n acc (l1 ++ l2)
  = novel_accumulator S n acc l1 ++ novel_accumulator S n acc l2.
Proof. unfold novel_accumulator. by rewrite filter_app, fmap_app, concat_app. Qed.

Lemma novel_accumulator_cons_novel (S : gset string) n (acc : string → list string) l ls :
  l ∉ S →
  novel_accumulator S n acc (l :: ls) = take n (acc l) ++ novel_accumulator S n acc ls.
Proof. intros. unfold novel_accumulator. by rewrite filter_cons_True. Qed.

Lemma novel_accumulator_without (S : gset string) n (acc : string → list string) l ls :
  l ∈ S →
  novel_accumulator S n acc (filter (λ x, x ≠ l) ls) = novel_accumulator S n acc ls.
Proof.
  intros Hl. unfold novel_accumulator. do 2 f_equal.
  induction ls as [|x ls IH]; [done|].
  destruct (decide (x = l)) as [->|Hx].
  - rewrite (filter_cons_False (λ x, x ≠ l)) by (by intros ?).
    rewrite (filter_cons_False (λ x, x ∉ S)) by (by intros ?). done.
  - rewrite (filter_cons_True (λ x, x ≠ l)) by done.
    rewrite !(filter_cons (λ x, x ∉ S)), IH. done.
Qed.

Lemma output_lookup (acc : string → list string) (known : list string) novel j (g : group) :
  ((group_of acc <$> known) ++ [(new_lineages_label, novel)]) !! j = Some g →
  (∃ l, known !! j = Some l ∧ g = (l, acc l))
  ∨ (j = length known ∧ g = (new_lineages_label, novel)).
Proof.
  intros Hj. apply lookup_app_Some in Hj as [Hj|[Hlen Hj]].
  - left. rewrite list_lookup_fmap in Hj.
    destruct (known !! j) as [l|]; [|done]. injection Hj as <-. by exists l.
  - right. rewrite length_fmap in Hlen, Hj.
    destruct (j - length known)%nat as [|k] eqn:Hk; [|by destruct k].
    injection Hj as <-. split; [lia|done].
Qed.

(** C2, counterexample: a catalog whose only lineage is named
    [new_lineages] and is listed by the reference tree.  The lineage is a
    member, and its name is the label of two output groups: its own, at
    index 0, and the novel one, at index 1. *)
Lemma lineage_name_on_two_groups :
  let lineages := ["new_lineages"] in
  let in_tree := ["new_lineages"] in
  let out := get_dataset (λ _, ["p1"]) lineages script_cap in_tree [] in
  NoDup lineages ∧ "new_lineages" ∈ lineages ∧ "new_lineages" ∈ in_tree
  ∧ (∃ g, out !! 0%nat = Some g ∧ g.1 = "new_lineages")
  ∧ (∃ g, out !! 1%nat = Some g ∧ g.1 = "new_lineages").
Proof.
  split; [compute_done|]. split; [compute_done|]. split; [compute_done|].
  split; eexists; (split; [by vm_compute|done]).
Qed.

(** A lineage name that the catalog lists twice is met twice by the loop: a
    member then labels two groups. *)
Lemma repeated_lineage_on_two_groups :
  let out := get_dataset (λ _, ["p1"]) ["A"; "A"] script_cap ["A"] [] in
  out !! 0%nat = Some ("A", ["p1"]) ∧ out !! 1%nat = Some ("A", ["p1"]).
Proof. split; by vm_compute. Qed.

(** C2, as amended: when the catalog lists each lineage name once, no member
    lineage is named [new_lineages] and the cap is not negative, every
    lineage [l] of the catalog appears in exactly one output group.  A
    member lineage is the label of exactly one group of the output, which
    holds all its accessions, and it contributes nothing to the novel group:
    that group is what it would be were the lineage absent from the catalog.
    A lineage outside the reference tree labels no group of its own (only
    the last group can bear its name), and the novel group holds, between
    what the lineages before it and after it contribute, the first [cap] of
    its accessions, once. *)
Theorem every_lineage_in_one_group acc lineages cap in_tree l
    (Hcap : 0 ≤ cap) (Hnodup : NoDup lineages)
    (Hfresh : new_lineages_label ∉ known_lineages in_tree lineages)
    (Hl : l ∈ lineages) :
  let out := get_dataset acc lineages cap in_tree [] in
  let membership : gset string := list_to_set in_tree in
  let n := Z.to_nat cap in
  (l ∈ in_tree →
     (∃ i, out !! i = Some (l, acc l)
           ∧ ∀ j g, out !! j = Some g → g.1 = l → j = i)
     ∧ last out
       = Some (new_lineages_label,
               novel_accumulator membership n acc
                                 (filter (λ x, x ≠ l) lineages)))
  ∧ (l ∉ in_tree →
     (∀ j g, out !! j = Some g → g.1 = l → S j = length out)
     ∧ ∃ before after,
         lineages = before ++ l :: after ∧ (l ∉ before) ∧ (l ∉ after)
         ∧ last out
           = Some (new_lineages_label,
                   novel_accumulator membership n acc before
                   ++ take n (acc l)
                   ++ novel_accumulator membership n acc after)).
Proof.
  intros out membership n. unfold out.
  rewrite get_dataset_unfold, app_nil_l, novel_concat_eq by done.
  fold membership n. split.
  - intros Hmem. split.
    + assert (l ∈ known_lineages in_tree lineages) as Hknown
        by by apply known_spec.
      assert (NoDup (known_lineages in_tree lineages)) as Hnd
        by by apply NoDup_filter.
      destruct (once_in_NoDup (known_lineages in_tree lineages) l Hnd Hknown)
        as (i & Hi & Huniq).
      exists i. split.
      * apply lookup_app_l_Some. by rewrite list_lookup_fmap, Hi.
      * intros j g [(l' & Hj & ->)|[_ ->]]%output_lookup Hlabel; simpl in Hlabel.
        -- subst l'. by apply Huniq.
        -- destruct Hfresh. by rewrite Hlabel.
    + rewrite last_snoc. rewrite novel_accumulator_without; [done|].
      by apply elem_of_list_to_set.
  - intros Hnot. split.
    + intros j g [(l' & Hj & ->)|[-> ->]]%output_lookup Hlabel; simpl in Hlabel.
      * subst l'. apply list_elem_of_lookup_2, known_spec in Hj as [_ ?]. done.
      * rewrite length_app, length_fmap. simpl. lia.
    + apply list_elem_of_split in Hl as (before & after & ->).
      exists before, after. split; [done|].
      apply NoDup_app in Hnodup as (_ & Hdisj & Hafter).
      apply NoDup_cons in Hafter as [Hafter _].
      split; [|split; [done|]].
      * intros Hin. apply (Hdisj l Hin). by left.
      * rewrite last_snoc, novel_accumulator_app, novel_accumulator_cons_novel;
          [done|]. unfold membership. by rewrite elem_of_list_to_set.
Qed.

Lemma every_lineage_in_one_group_witness :
  (∃ i, get_dataset example_lookup ["A"; "B"; "C"] 2 ["A"; "B"] [] !! i
        = Some ("A", example_lookup "A"))
  ∧ last (get_dataset example_lookup ["A"; "B"; "C"] 2 ["A"; "B"] [])
    = Some (new_lineages_label, ["c1"; "c2"]).
Proof.
  assert (0 ≤ 2) as Hcap by lia.
  assert (NoDup ["A"; "B"; "C"]) as Hnodup by compute_done.
  assert (new_lineages_label ∉ known_lineages ["A"; "B"] ["A"; "B"; "C"])
    as Hfresh by compute_done.
  assert ("A" ∈ ["A"; "B"; "C"]) as Hl by compute_done.
  assert ("A" ∈ ["A"; "B"]) as Hmem by compute_done.
  destruct (proj1 (every_lineage_in_one_group example_lookup ["A"; "B"; "C"] 2
                     ["A"; "B"] "A" Hcap Hnodup Hfresh Hl) Hmem)
    as [(i & Hi & _) Hlast].
  split; [by exists i|]. rewrite Hlast. by vm_compute.
Defined.

(** C3: a lineage [l] that is not a member, listed between [before] and
    [after], puts into the novel group, after what the lineages before it
    put there and before what the later ones put, the first [cap] of its
    accessions: all of them when it has at most [cap], and otherwise exactly
    [cap] of them, a prefix of its list in the catalog's order. *)
Theorem novel_group_takes_prefix acc cap in_tree (before after : list string)
    (l : string) (Hcap : 0 ≤ cap) (Hnew : l ∉ in_tree) :
  let lineages := before ++ l :: after in
  let paths := acc l in
  let contribution := take (Z.to_nat cap) paths in
  get_dataset acc lineages cap in_tree []
  = (group_of acc <$> known_lineages in_tree lineages)
    ++ [(new_lineages_label,
         novel_accumulator (list_to_set in_tree) (Z.to_nat cap) acc before
         ++ contribution
         ++ novel_accumulator (list_to_set in_tree) (Z.to_nat cap) acc after)]
  ∧ (Z.of_nat (length paths) ≤ cap → contribution = paths)
  ∧ (cap < Z.of_nat (length paths) →
     Z.of_nat (length contribution) = cap ∧ contribution `prefix_of` paths).
Proof.
  intros lineages paths contribution. split; [|split].
  - rewrite get_dataset_unfold, app_nil_l, novel_slices_take by done.
    do 3 f_equal. unfold novel_lineages, novel_accumulator, lineages.
    rewrite filter_app, filter_cons_True by done.
    rewrite fmap_app, fmap_cons, concat_app, concat_cons.
    f_equal; [|f_equal]; do 2 f_equal; apply list_filter_iff; intros x;
      by rewrite elem_of_list_to_set.
  - intros Hle. apply take_ge. lia.
  - intros Hlt. split; [|apply prefix_take].
    unfold contribution. rewrite length_take. lia.
Qed.

Lemma novel_group_takes_prefix_witness :
  get_dataset example_lookup (["A"] ++ "C" :: ["B"]) 2 ["A"; "B"] []
  = [("A", ["a1"; "a2"; "a3"]); ("B", ["b1"]); ("new_lineages", ["c1"; "c2"])]
  ∧ Z.of_nat (length (take (Z.to_nat 2) (example_lookup "C"))) = 2.
Proof.
  assert (0 ≤ 2) as Hcap by lia.
  assert ("C" ∉ ["A"; "B"]) as Hnew by compute_done.
  pose proof (novel_group_takes_prefix example_lookup 2 ["A"; "B"] ["A"] ["B"]
                "C" Hcap Hnew) as (Hout & _ & Hlong).
  split; [rewrite Hout; by vm_compute|].
  apply Hlong. by vm_compute.
Defined.

(** C4, counterexample: when the only lineage of the catalog is named
    [new_lineages] and the reference tree lists it, the output has two
    groups with that label, the lineage's own and the novel one. *)
Lemma new_lineages_label_clash :
  lineages_in_tree ["new_lineages"] (Returned clash_reference)
  = Returned ["new_lineages"]
  ∧ get_dataset (λ _, ["p1"]) ["new_lineages"] script_cap ["new_lineages"] []
    = [("new_lineages", ["p1"]); ("new_lineages", [])]
  ∧ length (groups_labelled new_lineages_label
              (get_dataset (λ _, ["p1"]) ["new_lineages"] script_cap
                           ["new_lineages"] []))
    ≠ 1%nat.
Proof. by vm_compute. Qed.

(** C4, as amended: the output always consists of the groups of the member
    lineages followed by one group labelled [new_lineages]; that group is
    there with an empty accession list when every lineage is a member; and
    it is the only group with that label provided no member lineage of the
    catalog is itself named [new_lineages]. *)
Theorem new_lineages_group_is_last acc lineages cap in_tree :
  let out := get_dataset acc lineages cap in_tree [] in
  ∃ novel,
    out = (group_of acc <$> known_lineages in_tree lineages)
          ++ [(new_lineages_label, novel)]
    ∧ last out = Some (new_lineages_label, novel)
    ∧ ((∀ l, l ∈ lineages → l ∈ in_tree) → novel = [])
    ∧ (new_lineages_label ∉ known_lineages in_tree lineages →
       groups_labelled new_lineages_label out = [(new_lineages_label, novel)]).
Proof.
  intros out. unfold out. rewrite get_dataset_unfold, app_nil_l.
  eexists. split; [done|]. split; [apply last_snoc|]. split.
  - intros Hall.
    replace (novel_lineages in_tree lineages) with (@nil string); [done|].
    symmetry. apply elem_of_nil_inv.
    intros l [Hl Hnot]%novel_spec. by apply Hnot, Hall.
  - intros Hfresh. unfold groups_labelled. rewrite filter_app.
    rewrite groups_labelled_known by done. by rewrite filter_cons_True.
Qed.

(** C6, counterexample: on the worked example a second call of
    [get_dataset], which finds in [dataset] what the first call left there,
    does not return what the first call returned. *)
Lemma get_dataset_second_call_differs :
  let first := get_dataset example_lookup ["A"; "B"; "C"] script_cap
                           ["A"; "B"] [] in
  let second := get_dataset example_lookup ["A"; "B"; "C"] script_cap
                            ["A"; "B"] first in
  first = example_dataset ∧ second = example_dataset ++ example_dataset
  ∧ second ≠ first.
Proof. by vm_compute. Qed.

(** C6, as amended: [get_dataset] appends its groups to what the
    module-level list [dataset] holds, so a call made without binding
    [dataset] to a new empty list first returns the earlier content followed
    by the groups, and a second call in a row returns the groups twice.
    Started on the empty list, as the script does, the result is determined
    by the inputs: two catalogs with the same lineages and the same
    accessions for them, and two reference lists with the same members,
    give the same groups in the same order. *)
Theorem get_dataset_appends acc acc' lineages cap in_tree in_tree' dataset :
  let first := get_dataset acc lineages cap in_tree [] in
  get_dataset acc lineages cap in_tree dataset = dataset ++ first
  ∧ get_dataset acc lineages cap in_tree first = first ++ first
  ∧ ((∀ l, l ∈ lineages → acc l = acc' l) →
     (∀ l, l ∈ in_tree ↔ l ∈ in_tree') →
     first = get_dataset acc' lineages cap in_tree' []).
Proof.
  intros first. split; [|split].
  - unfold first. by rewrite !get_dataset_unfold.
  - unfold first.
    rewrite (get_dataset_unfold _ _ _ _ (get_dataset _ _ _ _ _)).
    by rewrite !get_dataset_unfold.
  - apply get_dataset_ext.
Qed.

(** C9, counterexample: with the lineages [B.1] and [new_lineages], both
    listed by the reference tree, the label [new_lineages] occurs twice. *)
Lemma labels_repeat_sentinel :
  labels (get_dataset (λ _, ["p1"]) ["B.1"; "new_lineages"] script_cap
                      ["B.1"; "new_lineages"] [])
  = ["B.1"; "new_lineages"; "new_lineages"]
  ∧ ¬ NoDup (labels (get_dataset (λ _, ["p1"]) ["B.1"; "new_lineages"]
                                 script_cap ["B.1"; "new_lineages"] [])).
Proof. split; [by vm_compute|compute_done]. Qed.

(** C9, as amended: when the catalog lists each lineage name once and no
    member lineage is named [new_lineages], the labels of the output are
    pairwise distinct. *)
Theorem labels_unique acc lineages cap in_tree
    (Hnodup : NoDup lineages)
    (Hfresh : new_lineages_label ∉ known_lineages in_tree lineages) :
  NoDup (labels (get_dataset acc lineages cap in_tree [])).
Proof.
  rewrite get_dataset_unfold, app_nil_l. unfold labels.
  rewrite fmap_app, <- list_fmap_compose. simpl.
  rewrite (list_fmap_ext (fst ∘ group_of acc) id
                         (known_lineages in_tree lineages)) by done.
  rewrite list_fmap_id. apply NoDup_app. split; [by apply NoDup_filter|].
  split; [|apply NoDup_singleton].
  by intros l Hl ->%list_elem_of_singleton.
Qed.

Lemma labels_unique_witness :
  NoDup (labels (get_dataset example_lookup ["A"; "B"; "C"] script_cap
                             ["A"; "B"] [])).
Proof.
  assert (NoDup ["A"; "B"; "C"]) as Hnodup by compute_done.
  assert (new_lineages_label ∉ known_lineages ["A"; "B"] ["A"; "B"; "C"])
    as Hfresh by compute_done.
  exact (labels_unique example_lookup ["A"; "B"; "C"] script_cap ["A"; "B"]
                       Hnodup Hfresh).
Defined.

(** ** Runs of programs over the registry *)

Lemma run_bind {A B} (p : prog A) (k : A → prog B) t o :
  run (p ≫= k) t o ↔
  (∃ e, run p t (Raised e) ∧ o = Raised e)
  ∨ (∃ a t1 t2, run p t1 (Returned a) ∧ run (k a) t2 o ∧ t = t1 ++ t2).
Proof.
  revert t. induction p as [a|e|X c h IH]; intros t; simpl.
  - split.
    + intros H. right. by exists a, [], t.
    + intros [(e & [_ He] & _)|(a' & t1 & t2 & [-> Ha] & Hk & ->)];
        [done|]. by simplify_eq.
  - split.
    + intros [-> ->]. left. by exists e.
    + intros [(e' & [-> He] & ->)|(a' & t1 & t2 & [_ He] & _)]; [|done].
      by simplify_eq.
  - change (prog_bind k (Call c h)) with (Call c (λ r, h r ≫= k)). simpl.
    split.
    + intros (r & t' & -> & H).
      apply IH in H as [(e & H & ->)|(a & t1 & t2 & H1 & H2 & ->)].
      * left. exists e. split; [|done]. by exists r, t'.
      * right. exists a, (Ev c r :: t1), t2. split; [by exists r, t1|done].
    + intros [(e & (r & t' & -> & H) & ->)
             |(a & t1 & t2 & (r & t' & -> & H1) & H2 & ->)].
      * exists r, t'. split; [done|]. apply IH. left. by exists e.
      * exists r, (t' ++ t2). split; [done|]. apply IH. right.
        by exists a, t', t2.
Qed.

Lemma run_lift {A} (x : outcome A) t o : run (lift x) t o ↔ t = [] ∧ o = x.
Proof. destruct x; simpl; done. Qed.

Lemma every_call_run {A} P (p : prog A) t o :
  every_call P p → run p t o → Forall P t.
Proof.
  revert t. induction p as [a|e|X c h IH]; intros t; simpl.
  - intros _ [-> _]. constructor.
  - intros _ [-> _]. constructor.
  - intros Hall (r & t' & -> & Hrun). destruct (Hall r) as [Hc Hk].
    constructor; [done|]. by eapply IH.
Qed.

Lemma every_call_bind {A B} P (p : prog A) (k : A → prog B) :
  every_call P p → (∀ a, every_call P (k a)) → every_call P (p ≫= k).
Proof.
  intros Hp Hk. induction p as [a|e|X c h IH]; simpl in *; [done|done|].
  intros r. destruct (Hp r) as [Hc Hh]. split; [done|]. by apply IH.
Qed.

Lemma every_call_lift {A} P (x : outcome A) : every_call P (lift x).
Proof. by destruct x. Qed.

Lemma every_call_do {X} P (c : call X) :
  (∀ r, P (Ev c r)) → every_call P (do c).
Proof. intros Hc r. split; [done|]. apply every_call_lift. Qed.

Lemma every_call_try {A} P (p : prog A) :
  every_call P p → every_call P (try p).
Proof.
  induction p as [a|e|X c h IH]; simpl; [done|done|].
  intros Hall r. destruct (Hall r). split; [done|]. by apply IH.
Qed.

(** One statement of a block: a call whose events satisfy the predicate by
    assumption, or a pure step. *)
Ltac statement :=
  apply every_call_bind;
  [first [by apply every_call_do | apply every_call_lift]|intros ?].

(** In a list that starts with events of which none satisfies [P], an event
    that satisfies [P] lies after them. *)
Lemma split_after (P : event → Prop) (a t1 t2 b : list event) ev :
  Forall (λ x, ¬ P x) a → P ev → t1 ++ ev :: t2 = a ++ b →
  ∃ b1, t1 = a ++ b1 ∧ b = b1 ++ ev :: t2.
Proof.
  revert t1. induction a as [|x a IH]; intros t1 Hq Hev Heq.
  - by exists t1.
  - apply Forall_cons in Hq as [Hx Hq]. destruct t1 as [|y t1]; simpl in Heq.
    + by simplify_eq.
    + injection Heq as -> Heq.
      destruct (IH t1 Hq Hev Heq) as (b1 & -> & ->). by exists b1.
Qed.

(** ** The blocks of the script *)

Section Blocks.
Variable cat : catalog.
Variable file : outcome string.

Lemma make_datasets_calls P cap p :
  (∀ r, P (Ev (Model model_name) r)) → (∀ r, P (Ev get_ds_types r)) →
  (∀ ty ds r, P (Ev (create_datasets ty ds p) r)) →
  every_call P (make_datasets cat file cap p).
Proof.
  intros. unfold make_datasets. do 4 statement. by apply every_call_do.
Qed.

Lemma load_or_create_calls P :
  (∀ r, P (Ev (load_model model_name) r)) →
  (∀ r, P (Ev (Model model_name) r)) → (∀ r, P (Ev get_ds_types r)) →
  (∀ ty ds r, P (Ev (create_datasets ty ds portions) r)) →
  every_call P (load_or_create cat file).
Proof.
  intros. unfold load_or_create.
  apply every_call_bind; [by apply every_call_try, every_call_do|].
  intros [[]|e]; [done|]. by apply make_datasets_calls.
Qed.

Lemma show_structures_calls P :
  (∀ r, P (Ev get_ml_model_structures r)) →
  (∀ s r, P (Ev (get_ml_model_structure_hps s) r)) →
  every_call P show_structures.
Proof. intros. unfold show_structures. do 4 statement. done. Qed.

Lemma load_or_create_quiet t o :
  run (load_or_create cat file) t o → Forall quiet t.
Proof.
  apply every_call_run, load_or_create_calls; unfold quiet; simpl; tauto.
Qed.

Lemma show_structures_quiet t o : run show_structures t o → Forall quiet t.
Proof.
  apply every_call_run, show_structures_calls; unfold quiet; simpl; tauto.
Qed.

End Blocks.

Lemma set_frag_len_runs t o :
  run set_frag_len t o →
  (∃ e, t = [Ev get_ds_props (Raised e)] ∧ o = Raised e)
  ∨ (∃ printed e,
       t = [Ev get_ds_props (Returned printed); Ev get_ds_props (Raised e)]
       ∧ o = Raised e)
  ∨ (∃ printed ds_props,
       ds_props !! "frag_len" = None
       ∧ t = [Ev get_ds_props (Returned printed);
              Ev get_ds_props (Returned ds_props)]
       ∧ o = Raised no_frag_len)
  ∨ (∃ printed ds_props r,
       is_Some (ds_props !! "frag_len")
       ∧ t = [Ev get_ds_props (Returned printed);
              Ev get_ds_props (Returned ds_props);
              Ev (update_ds_props frag_len_patch) r]
       ∧ o = r).
Proof.
  unfold set_frag_len. simpl.
  intros ([printed|e] & t' & -> & Hrun); simpl in Hrun.
  - destruct Hrun as ([ds_props|e] & t'' & -> & Hrun); simpl in Hrun.
    + case_decide as Hprop; simpl in Hrun.
      * destruct Hrun as [-> ->]. right. right. left.
        by exists printed, ds_props.
      * destruct Hrun as (r & t3 & -> & Hrun).
        apply run_lift in Hrun as [-> ->].
        right. right. right. exists printed, ds_props, r.
        split; [|done]. by destruct (ds_props !! "frag_len"); [eexists|].
    + destruct Hrun as [-> ->]. right. left. by exists printed, e.
  - destruct Hrun as [-> ->]. left. by exists e.
Qed.

Lemma run_call {A X} (c : call X) (k : outcome X → prog A) r t o :
  run (k r) t o → run (Call c k) (Ev c r :: t) o.
Proof. intros. by exists r, t. Qed.

(** The two example runs are runs of the script. *)
Lemma example_run_runs :
  run (script example_catalog (Returned example_reference)) example_run
      (Returned ()).
Proof. unfold example_run. do 18 apply run_call. split; reflexivity. Defined.

Lemma example_run_without_frag_len_runs :
  run (script example_catalog (Returned example_reference))
      example_run_without_frag_len (Raised no_frag_len).
Proof.
  unfold example_run_without_frag_len. do 6 apply run_call.
  split; reflexivity.
Defined.

(** ** The fragment length *)

(** C10: in every run of the script, whatever the registry answers, one of
    three things happens.  The run ends on an exception before the check of
    line 95 is reached, and then the dataset properties were never changed
    and no training was started.  Or the check is reached, the properties
    the registry returned lack [frag_len], and the run ends there, right
    after the two [get_ds_props] calls, with the exception of line 96.  Or
    the properties have [frag_len], and the next call sets [frag_len] to
    288; if that call raises, the run ends with its exception.  Hence a
    training call is always preceded by an answered call that supplied the
    fragment length. *)
Theorem frag_len_supplied_or_fails cat file t o
    (Hrun : run (script cat file) t o) :
  (((∃ e, o = Raised e) ∧ Forall quiet t)
   ∨ (∃ t0 printed ds_props,
        Forall quiet t0
        ∧ ((ds_props !! "frag_len" = None
            ∧ t = t0 ++ [Ev get_ds_props (Returned printed);
                         Ev get_ds_props (Returned ds_props)]
            ∧ o = Raised no_frag_len)
           ∨ (is_Some (ds_props !! "frag_len")
              ∧ ∃ r rest,
                  t = t0 ++ [Ev get_ds_props (Returned printed);
                             Ev get_ds_props (Returned ds_props);
                             Ev (update_ds_props frag_len_patch) r] ++ rest
                  ∧ ∀ e, r = Raised e → rest = [] ∧ o = Raised e))))
  ∧ (∀ t1 ev t2, t = t1 ++ ev :: t2 → is_train ev →
       ∃ ev', ev' ∈ t1 ∧ supplies_frag_len ev' ∧ answered ev').
Proof.
  assert (∀ l : list event, Forall quiet l → Forall (λ x, ¬ is_train x) l)
    as Hnt.
  { intros l Hl. eapply Forall_impl; [exact Hl|]. by intros x [_ ?]. }
  assert (∀ (l : list event) t1 ev t2,
            Forall quiet l → l = t1 ++ ev :: t2 → ¬ is_train ev) as Hquiet.
  { intros l t1 ev t2 Hq ->. apply Forall_app in Hq as [_ Hq].
    by apply Forall_cons in Hq as [[_ ?] _]. }
  unfold script in Hrun.
  apply run_bind in Hrun as [(e & H1 & ->)|([] & ta & tb & H1 & Hrun & ->)].
  { apply load_or_create_quiet in H1. split; [left; eauto|].
    intros t1 ev t2 Heq Htr. by destruct (Hquiet _ _ _ _ H1 Heq). }
  apply load_or_create_quiet in H1.
  apply run_bind in Hrun as [(e & H2 & ->)|([] & tc & td & H2 & Hrun & ->)].
  { apply show_structures_quiet in H2.
    assert (Forall quiet (ta ++ tb)) as Hq by by apply Forall_app.
    split; [left; eauto|].
    intros t1 ev t2 Heq Htr. by destruct (Hquiet _ _ _ _ Hq Heq). }
  apply show_structures_quiet in H2.
  assert (Forall quiet (ta ++ tc)) as Hq by by apply Forall_app.
  rewrite app_assoc. set (t0 := ta ++ tc) in *. clearbody t0. clear H1 H2 ta tc.
  assert (∀ blk : list event, Forall quiet blk →
            ∀ t1 ev t2, t0 ++ blk = t1 ++ ev :: t2 → is_train ev →
              ∃ ev', ev' ∈ t1 ∧ supplies_frag_len ev' ∧ answered ev') as Hnone.
  { intros blk Hblk t1 ev t2 Heq Htr. exfalso.
    assert (Forall quiet (t0 ++ blk)) as Hall by by apply Forall_app.
    by destruct (Hquiet _ _ _ _ Hall Heq). }
  apply run_bind in Hrun as [(e & H3 & ->)|([] & te & tf & H3 & Hrun & ->)].
  - apply set_frag_len_runs in H3
      as [(e' & -> & Ho)|[(printed & e' & -> & Ho)
          |[(printed & ds_props & Hmiss & -> & Ho)
           |(printed & ds_props & r & Hsome & -> & Ho)]]].
    + split; [|apply Hnone; repeat constructor; simpl; tauto].
      left. split; [eauto|]. apply Forall_app. split; [done|].
      repeat constructor; simpl; tauto.
    + split; [|apply Hnone; repeat constructor; simpl; tauto].
      left. split; [eauto|]. apply Forall_app. split; [done|].
      repeat constructor; simpl; tauto.
    + split; [|apply Hnone; repeat constructor; simpl; tauto].
      right. exists t0, printed, ds_props. split; [done|]. by left.
    + subst r. split.
      * right. exists t0, printed, ds_props. split; [done|]. right.
        split; [done|]. exists (Raised e), []. split; [done|].
        by intros e0 [= <-].
      * intros t1 ev t2 Heq Htr. exfalso.
        assert (Forall (λ x, ¬ is_train x)
                  (t0 ++ [Ev get_ds_props (Returned printed);
                          Ev get_ds_props (Returned ds_props);
                          Ev (update_ds_props frag_len_patch) (Raised e)]))
          as Hq'.
        { apply Forall_app. split; [by apply Hnt|].
          repeat constructor; simpl; tauto. }
        rewrite Heq in Hq'. apply Forall_app in Hq' as [_ Hq'].
        by apply Forall_cons in Hq' as [? _].
  - apply set_frag_len_runs in H3
      as [(e' & -> & Ho)|[(printed & e' & -> & Ho)
          |[(printed & ds_props & Hmiss & -> & Ho)
           |(printed & ds_props & r & Hsome & -> & Ho)]]];
      [done|done|done|].
    subst r. split.
    + right. exists t0, printed, ds_props. split; [done|]. right.
      split; [done|]. exists (Returned ()), tf. split; [done|].
      intros e0 [=].
    + intros t1 ev t2 Heq Htr.
      assert (Forall (λ x, ¬ is_train x)
                (t0 ++ [Ev get_ds_props (Returned printed);
                        Ev get_ds_props (Returned ds_props);
                        Ev (update_ds_props frag_len_patch) (Returned ())]))
        as Hq'.
      { apply Forall_app. split; [by apply Hnt|].
        repeat constructor; simpl; tauto. }
      symmetry in Heq. rewrite app_assoc in Heq.
      destruct (split_after is_train _ _ _ _ _ Hq' Htr Heq) as (b1 & -> & _).
      exists (Ev (update_ds_props frag_len_patch) (Returned ())).
      split; [|done]. rewrite !elem_of_app. left. right.
      rewrite !elem_of_cons. auto.
Qed.

Lemma frag_len_supplied_or_fails_witness :
  (∀ t1 ev t2, example_run = t1 ++ ev :: t2 → is_train ev →
     ∃ ev', ev' ∈ t1 ∧ supplies_frag_len ev' ∧ answered ev')
  ∧ (∀ t1 ev t2, example_run_without_frag_len = t1 ++ ev :: t2 →
       ¬ is_train ev).
Proof.
  split.
  - exact (proj2 (frag_len_supplied_or_fails example_catalog
                    (Returned example_reference) example_run (Returned ())
                    example_run_runs)).
  - intros t1 ev t2 Heq Htr.
    destruct (proj2 (frag_len_supplied_or_fails example_catalog
                       (Returned example_reference)
                       example_run_without_frag_len (Raised no_frag_len)
                       example_run_without_frag_len_runs) t1 ev t2 Heq Htr)
      as (ev' & Hin & Hsup & _).
    assert (Forall (λ x, ¬ supplies_frag_len x) example_run_without_frag_len)
      as Hno by (repeat constructor; simpl; tauto).
    rewrite Heq in Hno. apply Forall_app in Hno as [Hno _].
    rewrite Forall_forall in Hno. exact (Hno ev' Hin Hsup).
Defined.

(** * Further properties of the script *)

Import Shape.

(** ** The groups of the dataset *)

Lemma slice_to_prefix {A} k (l : list A) : slice_to k l `prefix_of` l.
Proof. unfold slice_to. case_decide; apply prefix_take. Qed.

Lemma slice_to_length {A} k (l : list A) :
  0 ≤ k → (length (slice_to k l) ≤ Z.to_nat k)%nat.
Proof. intros. rewrite slice_to_nonneg, length_take by done. lia. Qed.

Lemma concat_slices_length (acc : string → list string) cap (ls : list string) :
  0 ≤ cap →
  (length (concat ((λ l, slice_to cap (acc l)) <$> ls))
   ≤ Z.to_nat cap * length ls)%nat.
Proof.
  intros Hcap. induction ls as [|l ls IH]; [simpl; lia|].
  rewrite fmap_cons, concat_cons, length_app, length_cons.
  pose proof (slice_to_length cap (acc l) Hcap). nia.
Qed.

Lemma slices_are_capped_prefixes (acc : string → list string) cap (ls : list string) :
  0 ≤ cap →
  Forall2 (λ l c, c `prefix_of` acc l
                  ∧ length c = (Z.to_nat cap `min` length (acc l))%nat)
          ls ((λ l, slice_to cap (acc l)) <$> ls).
Proof.
  intros Hcap. induction ls as [|l ls IH]; [constructor|].
  rewrite fmap_cons. constructor; [|done]. split; [apply slice_to_prefix|].
  by rewrite slice_to_nonneg, length_take.
Qed.

(** X4: for a cap that is not negative, the novel group, which is the last
    group, is made of one contribution per lineage outside the reference
    tree, in catalog order, and the contribution of a lineage is a prefix of
    its accessions, of length [cap] or, if it has fewer, of as many as it
    has.  So the group holds at most [cap] accessions for each such lineage;
    those lineages and the member lineages together are as many as the
    catalog has, and the output has one group per member lineage plus
    one. *)
Theorem novel_group_is_bounded acc lineages cap in_tree (Hcap : 0 ≤ cap) :
  ∃ novel contributions,
    last (get_dataset acc lineages cap in_tree []) = Some (new_lineages_label, novel)
    ∧ novel = concat contributions
    ∧ Forall2 (λ l c, c `prefix_of` acc l
                      ∧ length c = (Z.to_nat cap `min` length (acc l))%nat)
              (novel_lineages in_tree lineages) contributions
    ∧ (length novel ≤ Z.to_nat cap * length (novel_lineages in_tree lineages))%nat
    ∧ (length (novel_lineages in_tree lineages)
       + length (known_lineages in_tree lineages) = length lineages)%nat
    ∧ length (get_dataset acc lineages cap in_tree [])
      = S (length (known_lineages in_tree lineages)).
Proof.
  rewrite get_dataset_unfold, app_nil_l. eexists _, _.
  split; [apply last_snoc|]. split; [done|].
  split; [by apply slices_are_capped_prefixes|].
  split; [by apply concat_slices_length|]. split.
  - rewrite <- length_app. apply Permutation_length.
    rewrite (comm (++)). apply filter_app_complement.
  - rewrite length_app, length_fmap. simpl. lia.
Qed.

Lemma novel_group_is_bounded_witness :
  ∃ novel contributions,
    last (get_dataset example_lookup ["A"; "B"; "C"] 2 ["A"; "B"] [])
    = Some (new_lineages_label, novel)
    ∧ novel = concat contributions
    ∧ Forall2 (λ l c, c `prefix_of` example_lookup l
                      ∧ length c = (2 `min` length (example_lookup l))%nat)
              ["C"] contributions.
Proof.
  assert (0 ≤ 2) as Hcap by lia.
  destruct (novel_group_is_bounded example_lookup ["A"; "B"; "C"] 2
              ["A"; "B"] Hcap) as (novel & cs & Hlast & Hcat & Hall & _).
  exists novel, cs. split; [exact Hlast|]. split; [exact Hcat|]. exact Hall.
Defined.

Lemma elem_of_concat {A} (x : A) (ls : list (list A)) :
  x ∈ concat ls ↔ ∃ l, x ∈ l ∧ l ∈ ls.
Proof.
  induction ls as [|l ls IH]; simpl.
  - split; [by intros ?%elem_of_nil|by intros (l & _ & ?%elem_of_nil)].
  - rewrite elem_of_app, IH. split.
    + intros [Hx|(l' & Hx & Hl')].
      * exists l. split; [done|]. by left.
      * exists l'. split; [done|]. by right.
    + intros (l' & Hx & [->|Hl']%elem_of_cons); [by left|]. right. by exists l'.
Qed.

(** X5: every group of the output is either the group of a catalog lineage
    that is in the reference tree, with exactly the accessions the catalog
    has for it, or the novel group, each of whose accessions is an accession
    of some catalog lineage outside the reference tree.  This holds for
    every integer bound of the slice. *)
Theorem accessions_come_from_their_lineage acc lineages cap in_tree g
    (Hg : g ∈ get_dataset acc lineages cap in_tree []) :
  (∃ l, l ∈ lineages ∧ l ∈ in_tree ∧ g = (l, acc l))
  ∨ (∃ novel, g = (new_lineages_label, novel)
       ∧ ∀ path, path ∈ novel →
           ∃ l, l ∈ lineages ∧ (l ∉ in_tree) ∧ path ∈ acc l).
Proof.
  rewrite get_dataset_unfold, app_nil_l in Hg.
  apply elem_of_app in Hg as [Hg|Hg].
  - left. apply list_elem_of_fmap in Hg as (l & -> & Hl).
    apply known_spec in Hl as [Hl Hin]. by exists l.
  - right. apply list_elem_of_singleton in Hg as ->. eexists. split; [done|].
    intros path (slice & Hpath & Hslice)%elem_of_concat.
    apply list_elem_of_fmap in Hslice as (l & -> & Hl).
    apply novel_spec in Hl as [Hl Hnot].
    exists l. split; [done|]. split; [done|].
    destruct (slice_to_prefix cap (acc l)) as [rest Hrest].
    rewrite Hrest. apply elem_of_app. by left.
Qed.

Lemma accessions_come_from_their_lineage_witness :
  (∃ l, l ∈ ["A"; "B"; "C"] ∧ l ∈ ["A"; "B"]
        ∧ ("B", ["b1"]) = (l, example_lookup l))
  ∨ (∃ novel, ("B", ["b1"]) = (new_lineages_label, novel)
       ∧ ∀ path, path ∈ novel →
           ∃ l, l ∈ ["A"; "B"; "C"] ∧ (l ∉ ["A"; "B"])
                ∧ path ∈ example_lookup l).
Proof.
  assert (("B", ["b1"])
          ∈ get_dataset example_lookup ["A"; "B"; "C"] script_cap ["A"; "B"] [])
    as Hg by compute_done.
  exact (accessions_come_from_their_lineage example_lookup ["A"; "B"; "C"]
           script_cap ["A"; "B"] ("B", ["b1"]) Hg).
Defined.

(** ** The reference list *)

Lemma str_le_total : Total str_le.
Proof. intros a b. apply String.leb_total. Qed.

(** X2: for every readable reference file the list [lineages_in_tree] is in
    ascending order after line 55, holds only catalog lineages, and has at
    most as many entries as the file has lines. *)
Theorem lineages_in_tree_sorted lineages text :
  ∃ in_tree,
    lineages_in_tree lineages (Returned text) = Returned in_tree
    ∧ Sorted str_le in_tree
    ∧ (∀ l, l ∈ in_tree → l ∈ lineages)
    ∧ (length in_tree ≤ length (readlines text))%nat.
Proof.
  eexists. split; [apply lineages_in_tree_returns|].
  split; [apply Sorted_merge_sort, str_le_total|]. split.
  - intros l Hl. unfold sort in Hl. rewrite merge_sort_Permutation in Hl.
    by apply list_elem_of_filter in Hl as [? _].
  - unfold sort. rewrite merge_sort_Permutation.
    etrans; [apply length_filter|]. by rewrite length_fmap.
Qed.

Lemma get_dataset_same_members acc lineages cap in_tree in_tree' d :
  (∀ l, l ∈ in_tree ↔ l ∈ in_tree') →
  get_dataset acc lineages cap in_tree d = get_dataset acc lineages cap in_tree' d.
Proof.
  intros Htree. rewrite !get_dataset_unfold.
  assert (known_lineages in_tree lineages = known_lineages in_tree' lineages)
    as ->.
  { apply list_filter_iff. intros. apply Htree. }
  assert (novel_lineages in_tree lineages = novel_lineages in_tree' lineages)
    as ->; [|done].
  apply list_filter_iff. intros x. by rewrite Htree.
Qed.

(** X3: the labels of the output are the member lineages in the order of
    the catalog, a subsequence of the catalog, followed by [new_lineages];
    the order of the reference list plays no part, so neither the order of
    the lines of the reference file nor the sort of line 55 changes the
    dataset. *)
Theorem groups_follow_catalog_order acc lineages cap in_tree :
  labels (get_dataset acc lineages cap in_tree [])
  = known_lineages in_tree lineages ++ [new_lineages_label]
  ∧ known_lineages in_tree lineages `sublist_of` lineages
  ∧ (∀ in_tree', in_tree' ≡ₚ in_tree →
       get_dataset acc lineages cap in_tree' [] = get_dataset acc lineages cap in_tree [])
  ∧ get_dataset acc lineages cap (sort in_tree) []
    = get_dataset acc lineages cap in_tree [].
Proof.
  split; [|split; [apply sublist_filter|split]].
  - rewrite get_dataset_unfold, app_nil_l. unfold labels.
    rewrite fmap_app, <- list_fmap_compose. simpl.
    rewrite (list_fmap_ext (fst ∘ group_of acc) id
                           (known_lineages in_tree lineages)) by done.
    by rewrite list_fmap_id.
  - intros in_tree' Hperm. apply get_dataset_same_members.
    intros l. by rewrite Hperm.
  - apply get_dataset_same_members. intros l. unfold sort.
    by rewrite merge_sort_Permutation.
Qed.

Lemma first_field_no_tab_id line : ¬ occurs "009"%char line → first_field line = line.
Proof.
  induction line as [|c line IH]; [done|]. simpl. intros Hno.
  case_decide as Hc; [by destruct Hno; left|].
  rewrite IH; [done|]. intros ?. apply Hno. by right.
Qed.

Lemma occurs_app_r c a b : occurs c b → occurs c (a +:+ b).
Proof.
  intros Hb. induction a as [|d a IH]; [done|].
  change (occurs c (String d (a +:+ b))). by right.
Qed.

Lemma readlines_nonempty c rest : readlines (String c rest) ≠ [].
Proof. simpl. case_decide; [done|]. by destruct (readlines rest). Qed.

Lemma terminated_cons c rest :
  terminated (String c rest) →
  (c = "010"%char ∧ rest = EmptyString) ∨ terminated rest ∧ rest ≠ EmptyString.
Proof.
  intros [?|[body Hbody]]; [done|]. destruct body as [|d body].
  - injection Hbody as -> ->. by left.
  - change (String c rest = String d (body +:+ String "010"%char EmptyString)) in Hbody.
    injection Hbody as -> ->. right. split; [right; by exists body|].
    by destruct body.
Qed.

Lemma readlines_terminated text :
  terminated text → Forall (occurs "010"%char) (readlines text).
Proof.
  induction text as [|c text IH]; [constructor|].
  intros [[-> ->]|[Hterm Hne]]%terminated_cons.
  - simpl. repeat constructor.
  - specialize (IH Hterm). simpl. case_decide as Hc.
    + constructor; [by left|done].
    + destruct text as [|d text]; [done|].
      pose proof (readlines_nonempty d text) as Hlines.
      destruct (readlines (String d text)) as [|l ls]; [done|].
      apply Forall_cons in IH as [Hl Hls]. constructor; [by right|done].
Qed.

Lemma occurs_readlines c text line :
  line ∈ readlines text → occurs c line → occurs c text.
Proof.
  revert line. induction text as [|d text IH]; intros line; simpl.
  - by intros ?%elem_of_nil.
  - case_decide as Hd.
    + intros [->|Hin]%elem_of_cons Hocc.
      * destruct Hocc as [->|[]]. by left.
      * right. by eapply IH.
    + destruct (readlines text) as [|l ls].
      * intros ->%list_elem_of_singleton [->|[]]. by left.
      * intros [->|Hin]%elem_of_cons Hocc.
        -- destruct Hocc as [->|Hocc]; [by left|]. right.
           apply (IH l); [by left|done].
        -- right. apply (IH line); [by right|done].
Qed.

Lemma known_lineages_nil (lineages : list string) : known_lineages [] lineages = [].
Proof.
  apply elem_of_nil_inv. intros l [_ Hl]%known_spec. by apply elem_of_nil in Hl.
Qed.

Lemma novel_lineages_nil (lineages : list string) : novel_lineages [] lineages = lineages.
Proof.
  unfold novel_lineages. induction lineages as [|l ls IH]; [done|].
  rewrite filter_cons_True, IH; [done|]. by intros ?%elem_of_nil.
Qed.

(** X1: a reference file that has no tab at all and whose last line ends
    with a newline yields no member, provided no catalog lineage has a
    newline in its name: the first field of each line is then the whole
    line, newline included, and matches no lineage.  The dataset is then the
    single group [new_lineages], made of the slices of all the lineages. *)
Theorem names_without_tab_are_not_members acc lineages cap text
    (Hnotab : ¬ occurs "009"%char text)
    (Hterm : terminated text)
    (Hnames : ∀ l, l ∈ lineages → ¬ occurs "010"%char l) :
  lineages_in_tree lineages (Returned text) = Returned []
  ∧ get_dataset acc lineages cap [] []
    = [(new_lineages_label, concat ((λ l, slice_to cap (acc l)) <$> lineages))].
Proof.
  split.
  - rewrite lineages_in_tree_returns.
    replace (filter (λ x, x ∈ lineages) (first_field <$> readlines text))
      with (@nil string); [done|].
    symmetry. apply elem_of_nil_inv. intros x [Hx Hfield]%list_elem_of_filter.
    apply list_elem_of_fmap in Hfield as (line & -> & Hline).
    rewrite first_field_no_tab_id in Hx.
    + apply (Hnames line Hx).
      pose proof (readlines_terminated text Hterm) as Hall.
      rewrite Forall_forall in Hall. by apply Hall.
    + intros Hocc. apply Hnotab. by eapply occurs_readlines.
  - by rewrite get_dataset_unfold, app_nil_l, known_lineages_nil, novel_lineages_nil.
Qed.

Lemma names_without_tab_are_not_members_witness :
  lineages_in_tree ["A"; "B"] (Returned bare_reference) = Returned []
  ∧ get_dataset example_lookup ["A"; "B"] script_cap [] []
    = [(new_lineages_label,
        concat ((λ l, slice_to script_cap (example_lookup l)) <$> ["A"; "B"]))].
Proof.
  assert (¬ occurs "009"%char bare_reference) as Hnotab
    by (vm_compute; intuition discriminate).
  assert (terminated bare_reference) as Hterm
    by (right; exists ("A" +:+ String "010"%char "B"); reflexivity).
  assert (∀ l, l ∈ ["A"; "B"] → ¬ occurs "010"%char l) as Hnames.
  { intros l Hl. apply elem_of_cons in Hl as [->|Hl].
    - vm_compute. intuition discriminate.
    - apply list_elem_of_singleton in Hl as ->.
      vm_compute. intuition discriminate. }
  exact (names_without_tab_are_not_members example_lookup ["A"; "B"]
           script_cap bare_reference Hnotab Hterm Hnames).
Defined.

(** ** The name of the network and the error profiles *)



Lemma pretty_N_char_plain n : plain_char (pretty_N_char n).
Proof. unfold pretty_N_char, plain_char. by repeat case_match. Qed.

Lemma pretty_N_go_plain x s c :
  occurs c (pretty_N_go x s) → occurs c s ∨ plain_char c.
Proof.
  revert s. induction (N.lt_wf_0 x) as [x _ IH]; intros s.
  assert (x = 0 ∨ 0 < x)%N as [->|Hpos] by lia.
  - rewrite pretty_N_go_0. by left.
  - rewrite pretty_N_go_step by done. intros Hocc.
    apply IH in Hocc as [[<-|Hocc]|Hocc]; [|by left|by right|by apply N.div_lt].
    right. apply pretty_N_char_plain.
Qed.

Lemma pretty_Z_plain (z : Z) c : occurs c (pretty z) → plain_char c.
Proof.
  assert (∀ p : positive, occurs c (pretty p) → plain_char c) as Hpos.
  { intros p Hocc. unfold pretty, pretty_positive, pretty, pretty_N in Hocc.
    case_decide; [done|].
    by destruct (pretty_N_go_plain (N.pos p) "" c Hocc) as [[]|?]. }
  destruct z as [|p|p]; unfold pretty, pretty_Z.
  - intros [<-|[]]. done.
  - apply (Hpos p).
  - intros [<-|Hocc]; [done|]. by apply (Hpos p).
Qed.

Lemma cut_at {c : ascii} (a a' r r' : string) :
  ¬ occurs c a → ¬ occurs c a' →
  a +:+ String c r = a' +:+ String c r' → a = a' ∧ r = r'.
Proof.
  revert a'. induction a as [|d a IH]; intros [|d' a'] Ha Ha' Heq.
  - by injection Heq as ->.
  - change (String c r = String d' (a' +:+ String c r')) in Heq.
    injection Heq as <- _. destruct Ha'. by left.
  - change (String d (a +:+ String c r) = String c r') in Heq.
    injection Heq as -> _. destruct Ha. by left.
  - change (String d (a +:+ String c r) = String d' (a' +:+ String c r'))
      in Heq.
    injection Heq as -> Heq.
    destruct (IH a') as [-> ->]; [| |done|done].
    + intros ?. apply Ha. by right.
    + intros ?. apply Ha'. by right.
Qed.

Lemma append_inv_head (a b b' : string) : a +:+ b = a +:+ b' → b = b'.
Proof.
  induction a as [|d a IH]; [done|].
  change (String d (a +:+ b) = String d (a +:+ b') → b = b').
  intros [= Heq]. by apply IH.
Qed.

(** X12: for a depth and a coverage that are integers, as those the script
    passes, two calls of [get_model_name] that return the same name were
    made with the same depth, the same coverage and the same instrument. *)
Theorem get_model_name_inj d c i d' c' i' name
    (Hname : get_model_name d c i = Returned name)
    (Hname' : get_model_name d' c' i' = Returned name) :
  d = d' ∧ c = c' ∧ i = i'.
Proof.
  unfold get_model_name in *. repeat case_decide; try done.
  injection Hname as <-. injection Hname' as Heq.
  change ("vit." +:+ pretty d' +:+ "." +:+ pretty c' +:+ "x." +:+ i')
    with ("vit." +:+ (pretty d' +:+ String "."%char (pretty c' +:+ String "x"%char (String "."%char i')))) in Heq.
  change ("vit." +:+ pretty d +:+ "." +:+ pretty c +:+ "x." +:+ i)
    with ("vit." +:+ (pretty d +:+ String "."%char (pretty c +:+ String "x"%char (String "."%char i)))) in Heq.
  apply append_inv_head in Heq.
  apply cut_at in Heq as [Hd Heq].
  - apply cut_at in Heq as [Hc Hi].
    + apply (inj pretty) in Hd, Hc. by injection Hi as ->.
    + by intros [_ ?]%pretty_Z_plain.
    + by intros [_ ?]%pretty_Z_plain.
  - by intros [? _]%pretty_Z_plain.
  - by intros [? _]%pretty_Z_plain.
Qed.

Lemma get_model_name_inj_witness :
  ml_model_depth = 1 ∧ coverage = 4 ∧ sequencer_instrument = "ideal".
Proof.
  assert (get_model_name ml_model_depth coverage sequencer_instrument
          = Returned script_ml_model_name) as Hname by reflexivity.
  assert (get_model_name 1 4 "ideal" = Returned script_ml_model_name)
    as Hname' by reflexivity.
  exact (get_model_name_inj _ _ _ _ _ _ _ Hname Hname').
Defined.

Lemma error_profile_rates s i d :
  (0 <= s)%Q → (s <= 1)%Q → (0 <= i)%Q → (i <= 1)%Q → (0 <= d)%Q → (d <= 1)%Q →
  dom (error_profile s i d) = rate_keys
  ∧ ∀ k, k ∈ rate_keys → float_between 0 1 (error_profile s i d !! k).
Proof.
  intros. unfold error_profile, rate_keys. split.
  - rewrite !dom_insert_L, dom_singleton_L. apply set_eq. intros k.
    rewrite !elem_of_union, !elem_of_singleton. tauto.
  - intros k. rewrite !elem_of_union, !elem_of_singleton.
    intros [[->| ->]| ->]; by vm_compute.
Qed.

(** X13: every error profile of the table defines exactly the three rates,
    each a float between 0 and 1, and none defines [coverage]; so the patch
    of lines 217-219 keeps the coverage it is given, keeps the three rates
    of the profile, and has these four keys only. *)
Theorem error_profiles_are_rates i profile c
    (Hprofile : sequencer_instrument_to_error_profile_map !! i = Some profile) :
  dom profile = rate_keys
  ∧ (∀ k, k ∈ rate_keys → float_between 0 1 (profile !! k))
  ∧ coverage_patch c profile !! "coverage" = Some (VInt c)
  ∧ (∀ k, k ∈ rate_keys → coverage_patch c profile !! k = profile !! k)
  ∧ dom (coverage_patch c profile) = rate_keys ∪ {[ "coverage" ]}.
Proof.
  assert (dom profile = rate_keys
          ∧ ∀ k, k ∈ rate_keys → float_between 0 1 (profile !! k))
    as [Hdom Hrates].
  { revert i profile Hprofile.
    change (map_Forall (λ _ profile,
              dom profile = rate_keys
              ∧ ∀ k, k ∈ rate_keys → float_between 0 1 (profile !! k))
              sequencer_instrument_to_error_profile_map).
    unfold sequencer_instrument_to_error_profile_map.
    repeat apply map_Forall_insert_2; try apply map_Forall_empty;
      apply error_profile_rates; by vm_compute. }
  assert (profile !! "coverage" = None) as Hfree.
  { apply not_elem_of_dom. rewrite Hdom. unfold rate_keys.
    rewrite !elem_of_union, !elem_of_singleton. by intros [[?|?]|?]. }
  split; [done|]. split; [done|]. unfold coverage_patch. split; [|split].
  - rewrite lookup_union_r by done. apply lookup_singleton_eq.
  - intros k Hk. apply lookup_union_l'.
    apply elem_of_dom. by rewrite Hdom.
  - by rewrite dom_union_L, dom_singleton_L, Hdom.
Qed.

Lemma error_profiles_are_rates_witness :
  coverage_patch coverage (error_profile 0.01 0.04 0.04) !! "coverage"
  = Some (VInt coverage).
Proof.
  assert (sequencer_instrument_to_error_profile_map !! "ont"
          = Some (error_profile 0.01 0.04 0.04)) as Hont by reflexivity.
  exact (proj1 (proj2 (proj2 (error_profiles_are_rates "ont" _ coverage Hont)))).
Defined.

(** ** The blocks of the script, run by run *)

(** Inversion of one unhandled call followed by a continuation. *)
Lemma run_do_bind {X A} (c : call X) (k : X → prog A) t o :
  run (do c ≫= k) t o →
  (∃ e, t = [Ev c (Raised e)] ∧ o = Raised e)
  ∨ (∃ x t', t = Ev c (Returned x) :: t' ∧ run (k x) t' o).
Proof.
  simpl. intros ([x|e] & t' & -> & Hrun); simpl in Hrun.
  - right. by exists x, t'.
  - destruct Hrun as [-> ->]. left. by exists e.
Qed.

Lemma run_lift_bind {X A} (x : outcome X) (k : X → prog A) t o :
  run (lift x ≫= k) t o →
  (∃ e, x = Raised e ∧ t = [] ∧ o = Raised e)
  ∨ (∃ a, x = Returned a ∧ run (k a) t o).
Proof.
  destruct x as [a|e]; simpl.
  - intros Hrun. right. by exists a.
  - intros [-> ->]. left. by exists e.
Qed.

Lemma run_do {X} (c : call X) t o : run (do c) t o ↔ ∃ r, t = [Ev c r] ∧ o = r.
Proof.
  unfold do. simpl. split.
  - intros (r & t' & -> & [-> ->]%run_lift). by exists r.
  - intros (r & -> & ->). exists r, []. split; [done|]. by apply run_lift.
Qed.

Lemma run_try {A} (p : prog A) t o :
  run (try p) t o ↔ ∃ r, run p t r ∧ o = Returned r.
Proof.
  revert t. induction p as [a|e|X c h IH]; intros t; simpl.
  - split; [intros [-> ->]; by eexists|intros (r & [-> ->] & ->); done].
  - split; [intros [-> ->]; by eexists|intros (r & [-> ->] & ->); done].
  - split.
    + intros (r & t' & -> & H). apply IH in H as (r' & H & ->).
      exists r'. split; [|done]. by exists r, t'.
    + intros (r' & (r & t' & -> & H) & ->). exists r, t'. split; [done|].
      apply IH. by exists r'.
Qed.

Lemma make_datasets_inv cat text cap p t o :
  run (make_datasets cat (Returned text) cap p) t o →
  (∃ e, t = [Ev (Model model_name) (Raised e)] ∧ o = Raised e)
  ∨ (∃ e, t = [Ev (Model model_name) (Returned ());
               Ev get_ds_types (Raised e)] ∧ o = Raised e)
  ∨ (t = [Ev (Model model_name) (Returned ());
          Ev get_ds_types (Returned [])] ∧ o = Raised IndexError)
  ∨ (∃ ds_type others r,
       t = [Ev (Model model_name) (Returned ());
            Ev get_ds_types (Returned (ds_type :: others));
            Ev (create_datasets ds_type
                  (get_dataset (getLocalAccessionsPath cat)
                     (getLocalLineages cat 512) cap
                     (sort (filter (λ x, x ∈ getLocalLineages cat 512)
                                   (first_field <$> readlines text))) [])
                  p) r]
       ∧ o = r).
Proof.
  unfold make_datasets. rewrite lineages_in_tree_returns.
  change (lift (Returned ?x) ≫= ?k) with (k x). cbv beta zeta.
  intros [(e & -> & ->)|([] & t1 & -> & Hrun)]%run_do_bind.
  { left. by exists e. }
  apply run_do_bind in Hrun as [(e & -> & ->)|(tys & t2 & -> & Hrun)].
  { right. left. by exists e. }
  destruct tys as [|ty tys]; simpl in Hrun.
  { destruct Hrun as [-> ->]. right. right. by left. }
  apply run_do in Hrun as (r & -> & ->).
  right. right. right. by exists ty, tys, r.
Qed.

(** X6: with a readable reference file, the block that creates the model
    and its datasets ends in one of four ways: [Model] raises; or
    [get_ds_types] raises; or it returns no dataset type and the block
    raises [IndexError], after the model was created and before any dataset
    is; or [create_datasets] is called with the first dataset type, the
    groups [get_dataset] built from the catalog and the reference list, and
    the proportions, and the block ends as that call does. *)
Theorem make_datasets_runs cat text cap p :
  ∃ in_tree,
    lineages_in_tree (getLocalLineages cat 512) (Returned text) = Returned in_tree
    ∧ ∀ t o,
        run (make_datasets cat (Returned text) cap p) t o ↔
        (∃ e, t = [Ev (Model model_name) (Raised e)] ∧ o = Raised e)
        ∨ (∃ e, t = [Ev (Model model_name) (Returned ());
                     Ev get_ds_types (Raised e)] ∧ o = Raised e)
        ∨ (t = [Ev (Model model_name) (Returned ());
                Ev get_ds_types (Returned [])] ∧ o = Raised IndexError)
        ∨ (∃ ds_type others r,
             t = [Ev (Model model_name) (Returned ());
                  Ev get_ds_types (Returned (ds_type :: others));
                  Ev (create_datasets ds_type
                        (get_dataset (getLocalAccessionsPath cat)
                           (getLocalLineages cat 512) cap in_tree [])
                        p) r]
             ∧ o = r).
Proof.
  eexists. split; [apply lineages_in_tree_returns|].
  intros t o. split; [apply make_datasets_inv|].
  unfold make_datasets. rewrite lineages_in_tree_returns.
  change (lift (Returned ?x) ≫= ?k) with (k x). cbv beta zeta.
  intros [(e & -> & ->)|[(e & -> & ->)|[[-> ->]|(ty & tys & r & -> & ->)]]].
  - apply run_call. done.
  - do 2 apply run_call. done.
  - do 2 apply run_call. done.
  - do 3 apply run_call. by destruct r.
Qed.

(** X10: the block of lines 85-86 asks for the structures twice and then for
    the hyper-parameters of the first structure of the second answer; when
    that answer is the empty list it raises [IndexError] and makes no
    further call; any exception of the registry ends the block. *)
Theorem show_structures_runs t o :
  run show_structures t o ↔
  (∃ e, t = [Ev get_ml_model_structures (Raised e)] ∧ o = Raised e)
  ∨ (∃ printed e,
       t = [Ev get_ml_model_structures (Returned printed);
            Ev get_ml_model_structures (Raised e)] ∧ o = Raised e)
  ∨ (∃ printed,
       t = [Ev get_ml_model_structures (Returned printed);
            Ev get_ml_model_structures (Returned [])] ∧ o = Raised IndexError)
  ∨ (∃ printed structure others r,
       t = [Ev get_ml_model_structures (Returned printed);
            Ev get_ml_model_structures (Returned (structure :: others));
            Ev (get_ml_model_structure_hps structure) r]
       ∧ o = (_ ← r; Returned ())).
Proof.
  unfold show_structures. split.
  - intros [(e & -> & ->)|(printed & t1 & -> & Hrun)]%run_do_bind.
    { left. by exists e. }
    apply run_do_bind in Hrun as [(e & -> & ->)|(ss & t2 & -> & Hrun)].
    { right. left. by exists printed, e. }
    destruct ss as [|s ss]; simpl in Hrun.
    { destruct Hrun as [-> ->]. right. right. left. by exists printed. }
    destruct Hrun as (r & t3 & -> & Hrun).
    right. right. right. exists printed, s, ss, r.
    destruct r as [v|e]; simpl in Hrun; by destruct Hrun as [-> ->].
  - intros [(e & -> & ->)|[(printed & e & -> & ->)
           |[(printed & -> & ->)|(printed & s & ss & r & -> & ->)]]].
    + apply run_call. done.
    + do 2 apply run_call. done.
    + do 2 apply run_call. done.
    + do 3 apply run_call. by destruct r.
Qed.

Lemma set_frag_len_calls P :
  (∀ r, P (Ev get_ds_props r)) →
  (∀ r, P (Ev (update_ds_props frag_len_patch) r)) →
  every_call P set_frag_len.
Proof.
  intros. unfold set_frag_len. do 2 statement.
  case_decide; [done|]. by apply every_call_do.
Qed.

Lemma add_model_calls P n :
  (∀ r, P (Ev get_ml_model_structures r)) → (∀ r, P (Ev get_ds_props r)) →
  (∀ r, P (Ev get_labels r)) → (∀ hps r, P (Ev (add_ml_model n hps) r)) →
  every_call P (add_model n).
Proof.
  intros. unfold add_model. apply every_call_bind; [|by intros []].
  apply every_call_try. do 5 statement. by apply every_call_do.
Qed.

Lemma train_model_calls P n :
  (∀ r, P (Ev list_ml_models r)) → (∀ patch r, P (Ev (update_ds_props patch) r)) →
  (∀ r, P (Ev (set_ds_batch_size 512) r)) → (∀ r, P (Ev (train n 1000) r)) →
  every_call P (train_model n).
Proof. intros. unfold train_model. do 4 statement. by apply every_call_do. Qed.

Lemma script_ml_model_name_eq :
  get_model_name ml_model_depth coverage sequencer_instrument
  = Returned script_ml_model_name.
Proof. reflexivity. Qed.

(** What follows the loading or creation of the model makes no call that
    belongs to them. *)
Lemma script_split cat file t o :
  run (script cat file) t o →
  ∃ ta tb oa,
    t = ta ++ tb ∧ run (load_or_create cat file) ta oa
    ∧ Forall after_creation tb
    ∧ (∀ e, oa = Raised e → tb = [] ∧ o = Raised e).
Proof.
  unfold script.
  intros [(e & H1 & ->)|([] & ta & tb & H1 & Hrun & ->)]%run_bind.
  { exists t, [], (Raised e). rewrite app_nil_r.
    split; [done|]. split; [done|]. split; [constructor|].
    by intros e' [= <-]. }
  exists ta, tb, (Returned ()).
  split; [done|]. split; [done|]. split; [|done].
  eapply every_call_run; [|exact Hrun].
  apply every_call_bind; [by apply show_structures_calls|intros _].
  apply every_call_bind; [by apply set_frag_len_calls|intros _].
  statement.
  apply every_call_bind; [by apply add_model_calls|intros _].
  by apply train_model_calls.
Qed.

Lemma load_or_create_runs cat file t o :
  run (load_or_create cat file) t o →
  (t = [Ev (load_model model_name) (Returned ())] ∧ o = Returned ())
  ∨ (∃ e t', t = Ev (load_model model_name) (Raised e) :: t'
             ∧ run (make_datasets cat file script_cap portions) t' o).
Proof.
  unfold load_or_create. simpl.
  intros ([[]|e] & t' & -> & Hrun); simpl in Hrun.
  - destruct Hrun as [-> ->]. by left.
  - right. by exists e, t'.
Qed.

Lemma not_in_Forall (P : event → Prop) (l t1 t2 : list event) ev :
  Forall (λ x, ¬ P x) l → l = t1 ++ ev :: t2 → ¬ P ev.
Proof.
  intros Hall ->. apply Forall_app in Hall as [_ Hall].
  by apply Forall_cons in Hall as [? _].
Qed.

Lemma after_creation_not_creation ev : after_creation ev → ¬ is_creation ev.
Proof. destruct ev as [X c r]. destruct c; simpl; tauto. Qed.

Lemma is_create_creation ev : is_create ev → is_creation ev.
Proof. destruct ev as [X c r]. destruct c; simpl; tauto. Qed.

Lemma after_creation_no_create (l : list event) :
  Forall after_creation l → Forall (λ x, ¬ is_create x) l.
Proof.
  intros Hl. eapply Forall_impl; [exact Hl|]. intros ev Hev Hc.
  by apply (after_creation_not_creation ev Hev), is_create_creation.
Qed.

(** X7: in every run of the script with a readable reference file, a call
    of [create_datasets] comes right after [load_model] raised, [Model]
    returned and [get_ds_types] returned a non-empty list; it carries the
    first dataset type, the groups [get_dataset] builds with the cap 64 from
    the catalog and the reference list, and the proportions of lines 68-72;
    and it is the only such call of the run. *)
Theorem dataset_is_handed_over cat text t o
    (Hrun : run (script cat (Returned text)) t o) :
  ∃ in_tree,
    lineages_in_tree (getLocalLineages cat 512) (Returned text) = Returned in_tree
    ∧ ∀ t1 ev t2, t = t1 ++ ev :: t2 → is_create ev →
        ∃ e ds_type others r,
          t1 = [Ev (load_model model_name) (Raised e);
                Ev (Model model_name) (Returned ());
                Ev get_ds_types (Returned (ds_type :: others))]
          ∧ ev = Ev (create_datasets ds_type
                       (get_dataset (getLocalAccessionsPath cat)
                          (getLocalLineages cat 512) script_cap in_tree [])
                       portions) r
          ∧ Forall (λ x, ¬ is_create x) t2.
Proof.
  eexists. split; [apply lineages_in_tree_returns|].
  intros t1 ev t2 Heq Hev.
  apply script_split in Hrun as (ta & tb & oa & -> & Hload & Htb & _).
  apply after_creation_no_create in Htb.
  assert (∀ blk : list event, Forall (λ x, ¬ is_create x) blk →
            ta = blk → False) as Hnone.
  { intros blk Hblk ->.
    assert (Forall (λ x, ¬ is_create x) (blk ++ tb)) as Hall
      by by apply Forall_app.
    by destruct (not_in_Forall is_create _ _ _ _ Hall Heq). }
  apply load_or_create_runs in Hload as [[-> ->]|(e & t' & -> & Hload)].
  { destruct (Hnone [Ev (load_model model_name) (Returned ())]); [|done].
    repeat constructor; simpl; tauto. }
  apply make_datasets_inv in Hload
    as [(e' & -> & ->)|[(e' & -> & ->)|[[-> ->]|(ty & tys & r & -> & ->)]]].
  - edestruct Hnone; [|done]. repeat constructor; simpl; tauto.
  - edestruct Hnone; [|done]. repeat constructor; simpl; tauto.
  - edestruct Hnone; [|done]. repeat constructor; simpl; tauto.
  - clear Hnone. symmetry in Heq.
    set (ds := get_dataset _ _ _ _ _) in *.
    change (t1 ++ ev :: t2
            = [Ev (load_model model_name) (Raised e);
               Ev (Model model_name) (Returned ());
               Ev get_ds_types (Returned (ty :: tys))]
              ++ (Ev (create_datasets ty ds portions) r :: tb)) in Heq.
    apply (split_after is_create) in Heq as (b1 & -> & Hrest);
      [|repeat constructor; simpl; tauto|done].
    destruct b1 as [|x b1].
    + injection Hrest as <- <-. rewrite app_nil_r. by exists e, ty, tys, r.
    + injection Hrest as _ ->.
      by destruct (not_in_Forall is_create _ _ _ _ Htb eq_refl).
Qed.

Lemma dataset_is_handed_over_witness :
  ∃ in_tree,
    lineages_in_tree ["A"; "B"; "C"] (Returned example_reference)
    = Returned in_tree.
Proof.
  destruct (dataset_is_handed_over example_catalog example_reference
              example_run (Returned ()) example_run_runs)
    as (in_tree & Htree & _).
  exists in_tree. exact Htree.
Defined.




(** X9: a run whose first call, [load_model], returned is also a run of the
    script with any other catalog and any other reference file, readable or
    not, and it makes none of the calls that create a model or its
    datasets: with a stored model the catalog and the reference file play
    no part. *)
Theorem stored_model_ignores_catalog cat file cat' file' t o
    (Hrun : run (script cat file) t o)
    (Hloaded : ∀ ev t', t = ev :: t' → answered ev) :
  run (script cat' file') t o ∧ Forall (λ ev, ¬ is_creation ev) t.
Proof.
  pose proof (script_split _ _ _ _ Hrun)
    as (ta & tb & oa & -> & Hload & Htb & _).
  apply load_or_create_runs in Hload as [[-> ->]|(e' & t' & -> & Hload)].
  - split.
    + unfold script in *.
      apply run_bind in Hrun as [(e & H1 & ->)|([] & ta & tb' & H1 & H2 & Heq)].
      { apply load_or_create_runs in H1 as [[_ [=]]|(e' & t' & Heq & _)].
        by destruct (Hloaded _ _ Heq). }
      apply load_or_create_runs in H1 as [[-> _]|(e' & t' & -> & _)].
      * apply run_bind. right. exists (), [Ev (load_model model_name) (Returned ())], tb'.
        split; [by apply run_call|done].
      * by destruct (Hloaded _ _ Heq).
    + constructor; [simpl; tauto|].
      eapply Forall_impl; [exact Htb|]. apply after_creation_not_creation.
  - by destruct (Hloaded _ _ eq_refl).
Qed.

Lemma stored_model_ignores_catalog_witness :
  run (script clash_catalog (Raised missing_file))
      example_run_without_frag_len (Raised no_frag_len)
  ∧ Forall (λ ev, ¬ is_creation ev) example_run_without_frag_len.
Proof.
  assert (∀ ev t', example_run_without_frag_len = ev :: t' → answered ev)
    as Hloaded.
  { intros ev t' Heq. injection Heq as <- _. exact I. }
  exact (stored_model_ignores_catalog example_catalog
           (Returned example_reference) clash_catalog (Raised missing_file)
           example_run_without_frag_len (Raised no_frag_len)
           example_run_without_frag_len_runs Hloaded).
Defined.

(** X14: the block of lines 157-185 never raises: whatever fails inside it
    (a call of the registry, an empty list of structures, a dataset without
    [frag_len]) only sets [newly_added] to false.  It changes no dataset
    property and starts no training.  [newly_added] stays true exactly when
    [add_ml_model] was called and returned, and then its [d_model] is the
    [frag_len] the registry had just reported and its [labels] the number of
    labels reported; when it is false no call of [add_ml_model] returned. *)
Theorem add_model_never_raises n t o (Hrun : run (add_model n) t o) :
  ∃ newly_added,
    o = Returned newly_added
    ∧ Forall quiet t
    ∧ (newly_added = true →
       ∃ structure others ds_props d_model labels,
         ds_props !! "frag_len" = Some d_model
         ∧ t = [Ev get_ml_model_structures (Returned (structure :: others));
                Ev get_ds_props (Returned ds_props);
                Ev get_labels (Returned labels);
                Ev (add_ml_model n (ml_model_hps structure d_model labels))
                   (Returned ())])
    ∧ (newly_added = false → Forall (λ ev, ¬ answered_add ev) t).
Proof.
  assert (Forall quiet t) as Hquiet.
  { eapply every_call_run; [|exact Hrun].
    apply add_model_calls; unfold quiet; simpl; tauto. }
  unfold add_model in Hrun.
  apply run_bind in Hrun as [(e & Htry & ->)|(added & t1 & t2 & Htry & Hend & ->)].
  { apply run_try in Htry as (r & _ & [=]). }
  apply run_try in Htry as (r & Hbody & [= ->]).
  assert (t2 = [] ∧ o = Returned (if r is Returned _ then true else false))
    as [-> ->] by (destruct r; by destruct Hend).
  rewrite app_nil_r in *. clear Hend.
  exists (if r is Returned _ then true else false).
  split; [done|]. split; [done|].
  assert (∀ blk : list event, Forall (λ ev, ¬ is_add ev) blk → t1 = blk →
            Forall (λ ev, ¬ answered_add ev) t1) as Hnone.
  { intros blk Hblk ->. eapply Forall_impl; [exact Hblk|]. by intros ev ? [? _]. }
  apply run_do_bind in Hbody as [(e & Ht & ->)|(ss & t' & -> & Hbody)].
  { split; [done|]. intros _. eapply Hnone; [|exact Ht].
    repeat constructor; simpl; tauto. }
  destruct ss as [|s ss]; simpl in Hbody.
  { destruct Hbody as [Ht ->]. split; [done|]. intros _. subst t'.
    repeat constructor; unfold answered_add; simpl; tauto. }
  change (run (do get_ds_props ≫= λ ds_props,
                 lift (getitem ds_props "frag_len") ≫= λ d_model,
                   do get_labels ≫= λ labels,
                     do (add_ml_model n (ml_model_hps s d_model labels)))
              t' r) in Hbody.
  apply run_do_bind in Hbody as [(e & -> & ->)|(props & t'' & -> & Hbody)].
  { split; [done|]. intros _.
    repeat constructor; unfold answered_add; simpl; tauto. }
  apply run_lift_bind in Hbody as [(e & Hget & -> & ->)|(d & Hget & Hbody)].
  { split; [done|]. intros _.
    repeat constructor; unfold answered_add; simpl; tauto. }
  apply run_do_bind in Hbody as [(e & -> & ->)|(labels & t3 & -> & Hbody)].
  { split; [done|]. intros _.
    repeat constructor; unfold answered_add; simpl; tauto. }
  apply run_do in Hbody as (r' & -> & ->).
  unfold getitem in Hget. destruct (props !! "frag_len") as [d'|] eqn:Hd; [|done].
  injection Hget as ->. destruct r' as [[]|e].
  - split; [|done]. intros _. by exists s, ss, props, d, labels.
  - split; [done|]. intros _.
    repeat constructor; unfold answered_add; simpl; tauto.
Qed.

Lemma add_model_never_raises_witness :
  ∃ newly_added,
    Returned false = Returned newly_added
    ∧ Forall quiet [Ev get_ml_model_structures (Returned [])].
Proof.
  assert (run (add_model script_ml_model_name)
              [Ev get_ml_model_structures (Returned [])] (Returned false))
    as Hrun by (apply run_call; split; reflexivity).
  destruct (add_model_never_raises script_ml_model_name _ _ Hrun)
    as (b & Hb & Hquiet & _).
  exists b. split; [exact Hb|exact Hquiet].
Defined.

Lemma getitem_script_instrument :
  getitem sequencer_instrument_to_error_profile_map sequencer_instrument
  = Returned (error_profile 0.0 0.0 0.0).
Proof. reflexivity. Qed.

Lemma train_model_runs n t o :
  run (train_model n) t o →
  (∃ e, t = [Ev list_ml_models (Raised e)] ∧ o = Raised e)
  ∨ (∃ models e,
       t = [Ev list_ml_models (Returned models);
            Ev (update_ds_props (coverage_patch coverage (error_profile 0.0 0.0 0.0)))
               (Raised e)] ∧ o = Raised e)
  ∨ (∃ models e,
       t = [Ev list_ml_models (Returned models);
            Ev (update_ds_props (coverage_patch coverage (error_profile 0.0 0.0 0.0)))
               (Returned ());
            Ev (set_ds_batch_size 512) (Raised e)] ∧ o = Raised e)
  ∨ (∃ models,
       t = [Ev list_ml_models (Returned models);
            Ev (update_ds_props (coverage_patch coverage (error_profile 0.0 0.0 0.0)))
               (Returned ());
            Ev (set_ds_batch_size 512) (Returned ());
            Ev (train n 1000) o]).
Proof.
  unfold train_model. rewrite getitem_script_instrument.
  intros [(e & -> & ->)|(models & t1 & -> & Hrun)]%run_do_bind.
  { left. by exists e. }
  change (run (do (update_ds_props
                     (coverage_patch coverage (error_profile 0.0 0.0 0.0)))
               ≫= λ _, do (set_ds_batch_size 512)
               ≫= λ _, do (train n 1000)) t1 o) in Hrun.
  apply run_do_bind in Hrun as [(e & -> & ->)|([] & t2 & -> & Hrun)].
  { right. left. by exists models, e. }
  apply run_do_bind in Hrun as [(e & -> & ->)|([] & t3 & -> & Hrun)].
  { right. right. left. by exists models, e. }
  apply run_do in Hrun as (r & -> & ->).
  right. right. right. by exists models.
Qed.

Lemma script_reaches_training cat file t o :
  run (script cat file) t o →
  ((∃ e, o = Raised e) ∧ Forall (λ x, ¬ is_train x) t)
  ∨ ∃ t0 tl, t = t0 ++ tl ∧ Forall (λ x, ¬ is_train x) t0
             ∧ run (train_model script_ml_model_name) tl o.
Proof.
  assert (∀ t o, run (load_or_create cat file) t o →
                 Forall (λ x, ¬ is_train x) t) as Hload.
  { intros t' o'. apply every_call_run, load_or_create_calls; simpl; tauto. }
  assert (∀ t o, run show_structures t o → Forall (λ x, ¬ is_train x) t)
    as Hshow.
  { intros t' o'. apply every_call_run, show_structures_calls; simpl; tauto. }
  assert (∀ t o, run set_frag_len t o → Forall (λ x, ¬ is_train x) t)
    as Hset.
  { intros t' o'. apply every_call_run, set_frag_len_calls; simpl; tauto. }
  assert (∀ n t o, run (add_model n) t o → Forall (λ x, ¬ is_train x) t)
    as Hadd.
  { intros n t' o'. apply every_call_run, add_model_calls; simpl; tauto. }
  unfold script.
  intros [(e & H1 & ->)|([] & ta & t' & H1 & Hrun & ->)]%run_bind;
    apply Hload in H1.
  { left. eauto. }
  apply run_bind in Hrun as [(e & H2 & ->)|([] & tb & t'' & H2 & Hrun & ->)];
    apply Hshow in H2.
  { left. split; [eauto|]. by apply Forall_app. }
  apply run_bind in Hrun as [(e & H3 & ->)|([] & tc & t3 & H3 & Hrun & ->)];
    apply Hset in H3.
  { left. split; [eauto|]. by rewrite !Forall_app. }
  rewrite script_ml_model_name_eq in Hrun.
  change (run (add_model script_ml_model_name
               ≫= λ _, train_model script_ml_model_name) t3 o) in Hrun.
  apply run_bind in Hrun as [(e & H4 & ->)|(b & td & tl & H4 & Hrun & ->)];
    apply Hadd in H4.
  { left. split; [eauto|]. by rewrite !Forall_app. }
  right. exists (ta ++ tb ++ tc ++ td), tl.
  split; [by rewrite <- !app_assoc|]. split; [by rewrite !Forall_app|done].
Qed.

(** X15: in every run of the script a call of [train] is the last call of
    the run and the run ends as that call ends; it trains the network
    [vit.1.4x.ideal] for 1000 epochs, and the three calls before it are
    [list_ml_models], the update of the dataset properties with the coverage
    4 and the rates of the ideal instrument, and [set_ds_batch_size 512],
    all of which returned.  A run that returns normally ends with a [train]
    call that returned. *)
Theorem training_is_last cat file t o (Hrun : run (script cat file) t o) :
  (∀ t1 ev t2, t = t1 ++ ev :: t2 → is_train ev →
     t2 = []
     ∧ ev = Ev (train script_ml_model_name 1000) o
     ∧ ∃ t0 models,
         t1 = t0 ++ [Ev list_ml_models (Returned models);
                     Ev (update_ds_props
                           (coverage_patch coverage (error_profile 0.0 0.0 0.0)))
                        (Returned ());
                     Ev (set_ds_batch_size 512) (Returned ())])
  ∧ (o = Returned () →
     ∃ t1, t = t1 ++ [Ev (train script_ml_model_name 1000) (Returned ())]).
Proof.
  apply script_reaches_training in Hrun
    as [[[e ->] Hnone]|(t0 & tl & -> & Hnone & Hrun)].
  { split; [|done]. intros t1 ev t2 Heq Hev.
    by destruct (not_in_Forall is_train _ _ _ _ Hnone Heq). }
  assert (∀ blk : list event, Forall (λ x, ¬ is_train x) blk → tl = blk →
            ∀ t1 ev t2, t0 ++ tl = t1 ++ ev :: t2 → ¬ is_train ev) as Hquiet.
  { intros blk Hblk -> t1 ev t2 Heq.
    assert (Forall (λ x, ¬ is_train x) (t0 ++ blk)) as Hall
      by by apply Forall_app.
    by apply (not_in_Forall is_train _ _ _ _ Hall Heq). }
  apply train_model_runs in Hrun
    as [(e & Htl & ->)|[(models & e & Htl & ->)
        |[(models & e & Htl & ->)|(models & ->)]]].
  - split; [|done]. intros t1 ev t2 Heq Hev.
    exfalso. eapply Hquiet; [|exact Htl|exact Heq|exact Hev].
    repeat constructor; simpl; tauto.
  - split; [|done]. intros t1 ev t2 Heq Hev.
    exfalso. eapply Hquiet; [|exact Htl|exact Heq|exact Hev].
    repeat constructor; simpl; tauto.
  - split; [|done]. intros t1 ev t2 Heq Hev.
    exfalso. eapply Hquiet; [|exact Htl|exact Heq|exact Hev].
    repeat constructor; simpl; tauto.
  - clear Hquiet. split.
    + intros t1 ev t2 Heq Hev. symmetry in Heq.
      change (t1 ++ ev :: t2
              = t0 ++ [Ev list_ml_models (Returned models);
                       Ev (update_ds_props
                             (coverage_patch coverage (error_profile 0.0 0.0 0.0)))
                          (Returned ());
                       Ev (set_ds_batch_size 512) (Returned ())]
                   ++ [Ev (train script_ml_model_name 1000) o]) in Heq.
      rewrite app_assoc in Heq.
      apply (split_after is_train) in Heq as (b1 & -> & Hrest); [|
        apply Forall_app; split; [done|repeat constructor; simpl; tauto]|done].
      destruct b1 as [|x b1].
      * injection Hrest as <- <-. rewrite app_nil_r.
        split; [done|]. split; [done|]. by exists t0, models.
      * injection Hrest as _ Hrest. by destruct b1.
    + intros ->.
      exists (t0 ++ [Ev list_ml_models (Returned models);
                     Ev (update_ds_props
                           (coverage_patch coverage (error_profile 0.0 0.0 0.0)))
                        (Returned ());
                     Ev (set_ds_batch_size 512) (Returned ())]).
      by rewrite <- app_assoc.
Qed.

Lemma training_is_last_witness :
  ∃ t1, example_run
        = t1 ++ [Ev (train script_ml_model_name 1000) (Returned ())].
Proof.
  exact (proj2 (training_is_last example_catalog (Returned example_reference)
                  example_run (Returned ()) example_run_runs) eq_refl).
Defined.
